(** * postgres-utils: a shallow embedding of [src/index.ts]

    The library is a handful of pure functions that turn plain JavaScript
    objects into SQL text fragments and positional parameter arrays, plus
    camelCase / snake_case converters.

    Conventions of the embedding.
    - A JavaScript string is the [string] of its code units, for strings
      whose code units are below 256.  The regular expressions of the source
      only look at ASCII code units, every other unit is copied.
    - A JavaScript object is the list of its own enumerable string-keyed
      properties in the order [Object.entries] yields them; [ownEntries]
      gives that order from the order in which the properties were created.
      Objects given to the functions are ordinary ones, inheriting from
      [Object.prototype] alone.  The prototype of an object matters in two
      places, and is modelled there: the assignment [o["__proto__"] = v]
      goes to the inherited setter as long as the prototype chain of [o]
      reaches it (the key converters keep track of that in a [store]), and a
      bracket read with a caller-chosen key sees the members of
      [Object.prototype] ([lookupOperator]).
    - A JavaScript number that the source computes with is the integer it
      holds: [jsAdd] is the addition of doubles on non-negative integers and
      [numberText] is their conversion to text.  [paramsOffset] is taken
      to be a non-negative integer, as the specification requires.
    - A [throw] is the [Throw] constructor of [result]. *)

From Stdlib Require Import Bool Arith NArith ZArith List Ascii String Lia.
From Stdlib Require Import Decimal DecimalString DecimalN Sorted Permutation.
Import ListNotations.

Set Warnings "-register-all".

Open Scope string_scope.
Open Scope list_scope.

Infix "+++" := String.append (right associativity, at level 60) : string_scope.

(** ** JavaScript strings *)

Module JSString.

Definition code (c : ascii) : nat := nat_of_ascii c.

(** The character classes of the source's regular expressions. *)
Definition is_upper (c : ascii) : bool := (65 <=? code c)%nat && (code c <=? 90)%nat.
Definition is_lower (c : ascii) : bool := (97 <=? code c)%nat && (code c <=? 122)%nat.
Definition is_digit (c : ascii) : bool := (48 <=? code c)%nat && (code c <=? 57)%nat.

(** [toLowerCase] / [toUpperCase] on one code unit. *)
Definition toLowerCase (c : ascii) : ascii :=
  if is_upper c then ascii_of_nat (code c + 32) else c.
Definition toUpperCase (c : ascii) : ascii :=
  if is_lower c then ascii_of_nat (code c - 32) else c.

(** [s.includes(c)] for a one-character needle. *)
Fixpoint includes (c : ascii) (s : string) : bool :=
  match s with
  | EmptyString => false
  | String a r => Ascii.eqb a c || includes c r
  end.

(** [s.split(c)] for a one-character separator: every occurrence cuts. *)
Fixpoint split (c : ascii) (s : string) : list string :=
  match s with
  | EmptyString => [EmptyString]
  | String a r =>
      if Ascii.eqb a c then EmptyString :: split c r
      else match split c r with
           | h :: t => String a h :: t
           | [] => [String a EmptyString]
           end
  end.

(** [xs.join(sep)]. *)
Fixpoint join (sep : string) (xs : list string) : string :=
  match xs with
  | [] => EmptyString
  | [x] => x
  | x :: r => x +++ sep +++ join sep r
  end.

(** The decimal numeral of a non-negative integer: [n.toString()] and
    template interpolation for the integers a double holds exactly and prints
    in full (those below 2^53). *)
Definition toString (n : N) : string := NilEmpty.string_of_uint (N.to_uint n).

(** The double nearest to a non-negative integer, ties going to the even
    mantissa (IEEE 754 binary64, 53 bits of mantissa). *)
Definition roundToDouble (n : N) : N :=
  let bits := N.size n in
  if (bits <=? 53)%N then n
  else
    let e := (bits - 53)%N in
    let q := N.shiftr n e in
    let r := (n - N.shiftl q e)%N in
    let half := N.shiftl 1 (e - 1) in
    let q' := if (r <? half)%N then q
              else if (half <? r)%N then (q + 1)%N
              else if N.even q then q else (q + 1)%N in
    N.shiftl q' e.

(** [a + b] on numbers that hold non-negative integers. *)
Definition jsAdd (a b : N) : N := roundToDouble (a + b).

(** Removes the zeros at the end of the digits [s], counting them. *)
Fixpoint dropZeros (fuel : nat) (s shift : N) : N * N :=
  match fuel with
  | O => (s, shift)
  | S f =>
      if ((0 <? s) && (s mod 10 =? 0))%N
      then dropZeros f (s / 10)%N (shift + 1)%N
      else (s, shift)
  end.

Definition digitCount (n : N) : N := N.of_nat (String.length (toString n)).

(** The digits [s] with [s * 10^shift] converting to the double [n], among
    the two multiples of [10^shift] around [n]: the nearer one, the even one
    when they are as near. *)
Definition pickDigits (n shift : N) : option N :=
  let scale := (10 ^ shift)%N in
  let lo := (n / scale)%N in
  let hi := (lo + 1)%N in
  let okLo := (roundToDouble (lo * scale) =? n)%N in
  let okHi := (roundToDouble (hi * scale) =? n)%N in
  match okLo, okHi with
  | true, false => Some lo
  | false, true => Some hi
  | false, false => None
  | true, true =>
      let dl := (n - lo * scale)%N in
      let dh := (hi * scale - n)%N in
      if (dl <? dh)%N then Some lo
      else if (dh <? dl)%N then Some hi
      else Some (if N.even lo then lo else hi)
  end.

(** The fewest significant digits that denote the double [n]: one digit is
    tried first, then two, ... ([fuel] of them; seventeen always do). *)
Fixpoint shortestDigits (fuel : nat) (n shift : N) : N * N :=
  match fuel with
  | O => (n, 0%N)
  | S f =>
      match pickDigits n shift with
      | Some s => dropZeros 400 s shift
      | None => shortestDigits f n (shift - 1)%N
      end
  end.

Fixpoint zeros (k : nat) : string :=
  match k with
  | O => EmptyString
  | S j => String "0" (zeros j)
  end.

(** [Number.prototype.toString] / template interpolation of a double that
    holds a non-negative integer: the fewest digits that denote it, followed
    by zeros up to 21 digits and in exponent form beyond. *)
Definition numberText (n : N) : string :=
  if (n <? 2 ^ 53)%N then toString n
  else
    let '(s, shift) := shortestDigits 17 n (digitCount n - 1)%N in
    let digits := toString s in
    let count := (digitCount s + shift)%N in
    if (count <=? 21)%N then digits +++ zeros (N.to_nat shift)
    else
      match digits with
      | String d EmptyString => String d ("e+" +++ toString (count - 1))
      | String d rest => String d ("." +++ rest +++ "e+" +++ toString (count - 1))
      | EmptyString => EmptyString
      end.

End JSString.

Import JSString.

(** ** Case converter *)

Module CaseConverter.

(** [s.replace(/[A-Z]/g, (match) => `_${match.toLowerCase()}`)] *)
Fixpoint camelToSnakeCaseString (s : string) : string :=
  match s with
  | EmptyString => EmptyString
  | String c r =>
      if is_upper c
      then String "_" (String (toLowerCase c) (camelToSnakeCaseString r))
      else String c (camelToSnakeCaseString r)
  end.

(** [s.replace(/_[a-z]/g, (match) => match.charAt(1).toUpperCase())]:
    matches are found left to right and do not overlap. *)
Fixpoint snakeToCamelCaseString (s : string) : string :=
  match s with
  | EmptyString => EmptyString
  | String c r =>
      match r with
      | EmptyString => String c EmptyString
      | String d r' =>
          if Ascii.eqb c "_" && is_lower d
          then String (toUpperCase d) (snakeToCamelCaseString r')
          else String c (snakeToCamelCaseString r)
      end
  end.

(** Strings without an uppercase ASCII letter. *)
Fixpoint no_upper (s : string) : bool :=
  match s with
  | EmptyString => true
  | String c r => negb (is_upper c) && no_upper r
  end.

(** Strings without an underscore directly followed by a lowercase letter. *)
Fixpoint no_snake_pair (s : string) : bool :=
  match s with
  | EmptyString => true
  | String c r =>
      match r with
      | EmptyString => true
      | String d _ => negb (Ascii.eqb c "_" && is_lower d)
      end
      && no_snake_pair r
  end.

(** The number of uppercase ASCII letters of a string. *)
Fixpoint count_upper (s : string) : nat :=
  match s with
  | EmptyString => 0
  | String c r => (if is_upper c then 1 else 0) + count_upper r
  end.

(** The subset named by the specification: lowercase letters, digits and
    single underscores that are not adjacent to a digit. *)
Definition is_underscore (c : ascii) : bool := Ascii.eqb c "_".
Definition snake_char (c : ascii) : bool :=
  is_lower c || is_digit c || is_underscore c.
Definition neighbours_ok (a b : ascii) : bool :=
  negb (is_underscore a && is_underscore b)
  && negb (is_underscore a && is_digit b)
  && negb (is_digit a && is_underscore b).

Fixpoint supported_subset (s : string) : bool :=
  match s with
  | EmptyString => true
  | String c r =>
      snake_char c
      && match r with
         | EmptyString => true
         | String d _ => neighbours_ok c d
         end
      && supported_subset r
  end.

End CaseConverter.

(** ** JavaScript values, objects and exceptions *)

Module JSValue.

Inductive value : Type :=
| VUndefined
| VNull
| VBool (b : bool)
| VNum (n : Z)
| VStr (s : string)
| VDate (ms : Z)
| VArr (xs : list value)
| VObj (es : list (string * value)).

(** Own enumerable properties, in [Object.entries] order. *)
Definition object : Type := list (string * value).

Inductive error : Type :=
| TypeError
| Error (message : string).

Inductive result (A : Type) : Type :=
| Ok (a : A)
| Throw (e : error).
Arguments Ok {A} a.
Arguments Throw {A} e.

(** Own-property read [o[k]]. *)
Fixpoint obj_get (k : string) (o : object) : option value :=
  match o with
  | [] => None
  | (k', v) :: r => if String.eqb k' k then Some v else obj_get k r
  end.

(** Definition of the own property [k]: an existing property keeps its
    place, a new one goes last.  (An array index would go before the other
    keys; the converters below assign the indices first and in ascending
    order, as they find them, so going last is where it goes.) *)
Fixpoint obj_set (k : string) (v : value) (o : object) : object :=
  match o with
  | [] => [(k, v)]
  | (k', v') :: r =>
      if String.eqb k' k then (k', v) :: r else (k', v') :: obj_set k v r
  end.

(** An object under construction: its own properties, and whether the name
    [__proto__] still reaches the accessor of [Object.prototype] through its
    prototype chain.  A fresh object literal reaches it. *)
Definition store : Type := (object * bool)%type.

Definition fresh : store := ([], true).

(** Assignment [o[k] = v].  While [__proto__] reaches the accessor, assigning
    to it runs the inherited setter and creates no own property: the setter
    replaces the prototype of [o] by [v] when [v] is an object ([vReaches]
    telling whether [__proto__] reaches the accessor from [v]), removes it
    when [v] is [null], and ignores any other [v].  Once the accessor is out
    of reach, [__proto__] is a property name like any other. *)
Definition assign (k : string) (v : value) (vReaches : bool) (o : store) : store :=
  if String.eqb k "__proto__" && snd o then
    match v with
    | VNull => (fst o, false)
    | VObj _ | VArr _ | VDate _ => (fst o, vReaches)
    | _ => o
    end
  else (obj_set k v (fst o), snd o).

(** Array indices: the decimal numerals, without sign or leading zero, of
    the integers up to 2^32 - 2. *)
Definition arrayIndex (k : string) : option N :=
  match NilEmpty.uint_of_string k with
  | Some u =>
      let n := N.of_uint u in
      if String.eqb (toString n) k && (n <? 2 ^ 32 - 1)%N then Some n else None
  | None => None
  end.

Definition isArrayIndex (k : string) : bool :=
  match arrayIndex k with Some _ => true | None => false end.

Fixpoint insertByIndex (n : N) (e : string * value) (sorted : list (N * (string * value)))
    : list (N * (string * value)) :=
  match sorted with
  | [] => [(n, e)]
  | (m, e') :: r =>
      if (m <? n)%N then (m, e') :: insertByIndex n e r else (n, e) :: sorted
  end.

(** The entries [Object.entries] yields for the object whose properties
    were created in the order of [inserted] (as [JSON.parse] or successive
    definitions create them; a repeated key keeps its first place and takes
    the last value): array indices first, in ascending numeric order, then
    the other keys in the order of their creation. *)
Definition ownEntries (inserted : list (string * value)) : object :=
  let props := fold_left (fun o e => obj_set (fst e) (snd e) o) inserted [] in
  let indexed :=
    flat_map (fun e => match arrayIndex (fst e) with
                       | Some n => [(n, e)]
                       | None => []
                       end) props in
  map snd (fold_right (fun ne sorted => insertByIndex (fst ne) (snd ne) sorted) [] indexed)
    ++ filter (fun e => negb (isArrayIndex (fst e))) props.

Definition typeof_object (v : value) : bool :=
  match v with
  | VNull | VDate _ | VArr _ | VObj _ => true
  | _ => false
  end.
Definition is_null (v : value) : bool :=
  match v with VNull => true | _ => false end.
Definition instanceof_Date (v : value) : bool :=
  match v with VDate _ => true | _ => false end.

(** [Object.entries] of a string primitive: one entry per code unit. *)
Fixpoint stringEntries (i : N) (s : string) : object :=
  match s with
  | EmptyString => []
  | String c r => (toString i, VStr (String c EmptyString)) :: stringEntries (N.succ i) r
  end.

(** Induction on values that reaches the elements of arrays and the values
    of properties. *)
Section ValueInduction.

Variable P : value -> Prop.
Hypothesis HUndefined : P VUndefined.
Hypothesis HNull : P VNull.
Hypothesis HBool : forall b, P (VBool b).
Hypothesis HNum : forall n, P (VNum n).
Hypothesis HStr : forall s, P (VStr s).
Hypothesis HDate : forall ms, P (VDate ms).
Hypothesis HArr : forall xs, Forall P xs -> P (VArr xs).
Hypothesis HObj : forall es, Forall (fun e => P (snd e)) es -> P (VObj es).

Fixpoint value_induction (v : value) : P v :=
  match v with
  | VUndefined => HUndefined
  | VNull => HNull
  | VBool b => HBool b
  | VNum n => HNum n
  | VStr s => HStr s
  | VDate ms => HDate ms
  | VArr xs =>
      HArr xs
        ((fix go (l : list value) : Forall P l :=
            match l with
            | [] => Forall_nil P
            | x :: r => Forall_cons x (value_induction x) (go r)
            end) xs)
  | VObj es =>
      HObj es
        ((fix go (l : list (string * value)) : Forall (fun e => P (snd e)) l :=
            match l with
            | [] => Forall_nil _
            | (k, x) :: r =>
                Forall_cons (P := fun e => P (snd e)) (k, x) (value_induction x) (go r)
            end) es)
  end.

End ValueInduction.

End JSValue.

Import JSValue.

(** ** Key conversion of objects *)

Module KeyConverter.

Import CaseConverter.

(** [camelToSnakeCaseKeys] and [snakeToCamelCaseKeys] are the same function
    up to the string converter applied to the keys. *)
Section KeyConversion.

Variable convertString : string -> string.

(** [typeof v === "object" && v !== null && !(v instanceof Date)] *)
Definition recursesInto (v : value) : bool :=
  typeof_object v && negb (is_null v) && negb (instanceof_Date v).

(** [Object.entries(obj).forEach(([k, v]) => ...)] with [converted] as the
    accumulator; [Object.entries] throws on [null] and [undefined], sees the
    indices of an array and of a string, and nothing in a number, a boolean
    or a Date.  A value that is not recursed into is a primitive, [null] or a
    Date, and from a Date [__proto__] reaches the accessor. *)
Fixpoint convertObject (obj : value) : result store :=
  match obj with
  | VUndefined | VNull => Throw TypeError
  | VBool _ | VNum _ | VDate _ => Ok fresh
  | VStr s =>
      Ok (fold_left
            (fun converted e => assign (convertString (fst e)) (snd e) true converted)
            (stringEntries 0 s) fresh)
  | VArr xs =>
      (fix forEach (i : N) (xs : list value) (converted : store) : result store :=
         match xs with
         | [] => Ok converted
         | v :: xs' =>
             let convertedKey := convertString (toString i) in
             if recursesInto v then
               match convertObject v with
               | Ok c =>
                   forEach (N.succ i) xs'
                     (assign convertedKey (VObj (fst c)) (snd c) converted)
               | Throw e => Throw e
               end
             else forEach (N.succ i) xs' (assign convertedKey v true converted)
         end) 0%N xs fresh
  | VObj es =>
      (fix forEach (es : list (string * value)) (converted : store) : result store :=
         match es with
         | [] => Ok converted
         | (k, v) :: es' =>
             let convertedKey := convertString k in
             if recursesInto v then
               match convertObject v with
               | Ok c =>
                   forEach es' (assign convertedKey (VObj (fst c)) (snd c) converted)
               | Throw e => Throw e
               end
             else forEach es' (assign convertedKey v true converted)
         end) es fresh
  end.

(** What the function returns: the own properties of [converted]. *)
Definition convertKeys (obj : value) : result object :=
  match convertObject obj with
  | Ok converted => Ok (fst converted)
  | Throw e => Throw e
  end.

(** The value stored for one entry, and the loop over entries, as separate
    functions; they are shown to be the loops above. *)
Definition convertValue (v : value) : result value :=
  if recursesInto v then
    match convertKeys v with
    | Ok c => Ok (VObj c)
    | Throw e => Throw e
    end
  else Ok v.

(** The same with what [__proto__] reaches from the stored value. *)
Definition convertEntry (v : value) : result (value * bool) :=
  if recursesInto v then
    match convertObject v with
    | Ok c => Ok (VObj (fst c), snd c)
    | Throw e => Throw e
    end
  else Ok (v, true).

Fixpoint forEachEntry (es : list (string * value)) (converted : store) : result store :=
  match es with
  | [] => Ok converted
  | (k, v) :: es' =>
      match convertEntry v with
      | Ok w => forEachEntry es' (assign (convertString k) (fst w) (snd w) converted)
      | Throw e => Throw e
      end
  end.

Fixpoint forEachElement (i : N) (xs : list value) (converted : store) : result store :=
  match xs with
  | [] => Ok converted
  | v :: xs' =>
      match convertEntry v with
      | Ok w =>
          forEachElement (N.succ i) xs'
            (assign (convertString (toString i)) (fst w) (snd w) converted)
      | Throw e => Throw e
      end
  end.

End KeyConversion.

Definition camelToSnakeCaseKeys : value -> result object :=
  convertKeys camelToSnakeCaseString.

Definition snakeToCamelCaseKeys : value -> result object :=
  convertKeys snakeToCamelCaseString.

End KeyConverter.

(** ** WHERE-clause fragment builder *)

Module Where.

Import CaseConverter.

(** The own properties of [COMPARISON_OPERATORS_MAP]. *)
Definition COMPARISON_OPERATORS_MAP : list (string * string) :=
  [ ("eq", "=");
    ("neq", "<>");
    ("lt", "<");
    ("lte", "<=");
    ("gt", ">");
    ("gte", ">=");
    ("like", "LIKE");
    ("notLike", "NOT LIKE");
    ("ilike", "ILIKE");
    ("notIlike", "NOT ILIKE");
    ("in", "IN");
    ("notIn", "NOT IN");
    ("isNull", "IS NULL");
    ("isNotNull", "IS NOT NULL") ].

(** [COMPARISON_OPERATORS_MAP] is an object literal, so a bracket read also
    finds what it inherits from [Object.prototype].  Each inherited member is
    listed with the text a template literal renders it as under Node.js. *)
Definition native (name : string) : string :=
  "function " +++ name +++ "() { [native code] }".

Definition Object_prototype : list (string * string) :=
  [ ("constructor", native "Object");
    ("__defineGetter__", native "__defineGetter__");
    ("__defineSetter__", native "__defineSetter__");
    ("hasOwnProperty", native "hasOwnProperty");
    ("__lookupGetter__", native "__lookupGetter__");
    ("__lookupSetter__", native "__lookupSetter__");
    ("isPrototypeOf", native "isPrototypeOf");
    ("propertyIsEnumerable", native "propertyIsEnumerable");
    ("toString", native "toString");
    ("valueOf", native "valueOf");
    ("__proto__", "[object Object]");
    ("toLocaleString", native "toLocaleString") ].

(** What the variable [comparisonOperator] holds: a string of the table, or
    an inherited function or object (kept as its rendering). *)
Inductive operator : Type :=
| OpText (text : string)
| OpInherited (rendering : string).

Fixpoint assoc (k : string) (l : list (string * string)) : option string :=
  match l with
  | [] => None
  | (k', v) :: r => if String.eqb k' k then Some v else assoc k r
  end.

(** [COMPARISON_OPERATORS_MAP[token]]; [None] is [undefined]. *)
Definition lookupOperator (token : string) : option operator :=
  match assoc token COMPARISON_OPERATORS_MAP with
  | Some text => Some (OpText text)
  | None =>
      match assoc token Object_prototype with
      | Some r => Some (OpInherited r)
      | None => None
      end
  end.

(** Truthiness of what was read, for [if (!comparisonOperator)]. *)
Definition truthy (op : operator) : bool :=
  match op with
  | OpText text => negb (String.eqb text EmptyString)
  | OpInherited _ => true
  end.

(** [comparisonOperator === text] *)
Definition opIs (op : operator) (text : string) : bool :=
  match op with
  | OpText t => String.eqb t text
  | OpInherited _ => false
  end.

(** [`${comparisonOperator}`] *)
Definition render (op : operator) : string :=
  match op with
  | OpText t => t
  | OpInherited r => r
  end.

(** Lines 124-134: the field and the operator of a key. *)
Definition resolve (k : string) : result (string * operator) :=
  if includes ":" k then
    let tokens := split ":" k in
    let field := nth 0 tokens EmptyString in
    match nth_error tokens 1 with
    | Some token =>
        match lookupOperator token with
        | Some op =>
            if truthy op then Ok (field, op)
            else Throw (Error "Invalid comparison operator")
        | None => Throw (Error "Invalid comparison operator")
        end
    | None => Throw (Error "Invalid comparison operator")
    end
  else Ok (k, OpText "=").

(** [arrayParam.map((_, i) => `$${params.length + paramsOffset + i + 1}`)],
    [count] being [params.length]; the additions are done from the left. *)
Fixpoint placeholdersFrom (count paramsOffset : N) (i : N) (arrayParam : list string)
    : list string :=
  match arrayParam with
  | [] => []
  | _ :: r =>
      ("$" +++ numberText (jsAdd (jsAdd (jsAdd count paramsOffset) i) 1))
        :: placeholdersFrom count paramsOffset (N.succ i) r
  end.

Definition len {A : Type} (l : list A) : N := N.of_nat (List.length l).

(** The body of the [forEach] callback (lines 123-157) on the mutable
    arrays [lines] and [params]. *)
Definition callback (paramsOffset : N) (lines : list string) (params : list value)
    (k : string) (v : value) : result (list string * list value) :=
  match resolve k with
  | Throw e => Throw e
  | Ok (field, comparisonOperator) =>
      if opIs comparisonOperator "IS NULL" || opIs comparisonOperator "IS NOT NULL" then
        Ok (lines ++ [camelToSnakeCaseString field +++ " " +++ render comparisonOperator],
            params)
      else if opIs comparisonOperator "IN" || opIs comparisonOperator "NOT IN" then
        match v with
        | VStr s =>
            let arrayParam := split "," s in
            Ok (lines ++
                  [camelToSnakeCaseString field +++ " " +++ render comparisonOperator
                   +++ " ("
                   +++ join ", " (placeholdersFrom (len params) paramsOffset 0 arrayParam)
                   +++ ")"],
                params ++ [VArr (map VStr arrayParam)])
        | _ => Throw TypeError
        end
      else
        let params := params ++ [v] in
        Ok (lines ++
              [camelToSnakeCaseString field +++ " " +++ render comparisonOperator
               +++ " $" +++ numberText (jsAdd (len params) paramsOffset)],
            params)
  end.

Fixpoint forEach (paramsOffset : N) (entries : object)
    (lines : list string) (params : list value) : result (list string * list value) :=
  match entries with
  | [] => Ok (lines, params)
  | (k, v) :: r =>
      match callback paramsOffset lines params k v with
      | Ok (lines', params') => forEach paramsOffset r lines' params'
      | Throw e => Throw e
      end
  end.

Record GetParamsForWhereOutput : Type :=
  { whereSegment : string; whereParams : list value }.

(** [paramsOffset] is optional and defaults to [0]. *)
Definition getWhereParams (whereParams : object) (paramsOffset : option N)
    : result GetParamsForWhereOutput :=
  let paramsOffset := match paramsOffset with Some p => p | None => 0%N end in
  match forEach paramsOffset whereParams [] [] with
  | Ok (lines, params) =>
      Ok {| whereSegment := join (String "010" "AND" +++ String "010" EmptyString) lines;
            whereParams := params |}
  | Throw e => Throw e
  end.

End Where.

(** ** INSERT and SET fragment builders *)

Module Insert.

Import CaseConverter.

Record GetParamsForInsertOutput : Type :=
  { columnsSegment : string; paramsSegment : string; values : list value }.

(** [Object.entries(insertParams).forEach(([column, value], idx) => ...)] *)
Fixpoint forEach (entries : object) (idx : N)
    (columnsSegmentTokens paramsSegmentTokens : list string) (values : list value)
    : list string * list string * list value :=
  match entries with
  | [] => (columnsSegmentTokens, paramsSegmentTokens, values)
  | (column, value) :: r =>
      let snakeCaseColumn := camelToSnakeCaseString column in
      forEach r (N.succ idx)
        (columnsSegmentTokens ++ [snakeCaseColumn])
        (paramsSegmentTokens ++ ["$" +++ toString (idx + 1)])
        (values ++ [value])
  end.

Definition getParamsForInsert (insertParams : object) : GetParamsForInsertOutput :=
  let '(columnsSegmentTokens, paramsSegmentTokens, values) :=
    forEach insertParams 0%N [] [] [] in
  {| columnsSegment := join ", " columnsSegmentTokens;
     paramsSegment := join ", " paramsSegmentTokens;
     values := values |}.

Record GetParamsForSetOutput : Type :=
  { sqlSegment : string; setValues : list value }.

(** [Object.entries(setParams).forEach(([column, value], idx) => ...)] *)
Fixpoint forEachSet (entries : object) (idx : N)
    (sqlSegmentTokens : list string) (values : list value)
    : list string * list value :=
  match entries with
  | [] => (sqlSegmentTokens, values)
  | (column, value) :: r =>
      let snakeCaseColumn := camelToSnakeCaseString column in
      forEachSet r (N.succ idx)
        (sqlSegmentTokens ++ [snakeCaseColumn +++ "=$" +++ toString (idx + 1)])
        (values ++ [value])
  end.

Definition getParamsForSet (setParams : object) : GetParamsForSetOutput :=
  let '(sqlSegmentTokens, values) := forEachSet setParams 0%N [] [] in
  {| sqlSegment := join ", " sqlSegmentTokens; setValues := values |}.

End Insert.

(** ** Array normalizer *)

Module ArrayNormalizer.

(** A JavaScript number as the source meets it here: what [parseInt]
    returns. *)
Inductive number : Type :=
| NaN
| Int (z : Z)
| Infinity (negative : bool).

(** White space that [parseInt] skips, among the code units below 256:
    tab, line feed, vertical tab, form feed, carriage return, space and
    no-break space. *)
Definition is_space (c : ascii) : bool :=
  let n := code c in
  ((9 <=? n)%nat && (n <=? 13)%nat) || (n =? 32)%nat || (n =? 160)%nat.

Fixpoint trimStart (s : string) : string :=
  match s with
  | EmptyString => EmptyString
  | String c r => if is_space c then trimStart r else s
  end.

Definition digitValue (radix : Z) (c : ascii) : option Z :=
  let n := Z.of_nat (code c) in
  let d := if is_digit c then Some (n - 48)%Z
           else if is_lower c then Some (n - 87)%Z
           else if is_upper c then Some (n - 55)%Z
           else None in
  match d with
  | Some d => if (d <? radix)%Z then Some d else None
  | None => None
  end.

(** The longest prefix of digits of the radix, as a number. *)
Fixpoint parseDigits (radix : Z) (s : string) (acc : option Z) : option Z :=
  match s with
  | EmptyString => acc
  | String c r =>
      match digitValue radix c with
      | Some d =>
          parseDigits radix r
            (Some (radix * (match acc with Some a => a | None => 0 end) + d)%Z)
      | None => acc
      end
  end.

(** [parseInt(string)] with the radix left out: white space, a sign, an
    optional [0x] prefix, then digits; [NaN] when there is no digit.  The
    integer read is converted to the nearest double.  (Past twenty
    significant decimal digits the language lets an implementation read the
    further digits as zeros; the integers the properties below speak of
    are far smaller.) *)
Definition parseInt (s : string) : number :=
  let s := trimStart s in
  let '(sign, s) :=
    match s with
    | String "-" r => ((-1)%Z, r)
    | String "+" r => (1%Z, r)
    | _ => (1%Z, s)
    end in
  let '(radix, s) :=
    match s with
    | String "0" (String "x" r) => (16%Z, r)
    | String "0" (String "X" r) => (16%Z, r)
    | _ => (10%Z, s)
    end in
  match parseDigits radix s None with
  | Some z =>
      let d := roundToDouble (Z.to_N z) in
      if (d <? 2 ^ 1024)%N then Int (sign * Z.of_N d) else Infinity (sign <? 0)%Z
  | None => NaN
  end.

(** [numericKey.toString()] *)
Definition numberToString (x : number) : string :=
  match x with
  | NaN => "NaN"
  | Int z =>
      if (z <? 0)%Z then "-" +++ numberText (Z.to_N (- z)) else numberText (Z.to_N z)
  | Infinity negative => if negative then "-Infinity" else "Infinity"
  end.

(** [.sort()] without a comparator orders the elements by their string
    forms, code unit by code unit, and is stable. *)
Fixpoint insert (x : number) (sorted : list number) : list number :=
  match sorted with
  | [] => [x]
  | y :: r =>
      if String.ltb (numberToString y) (numberToString x)
      then y :: insert x r
      else x :: sorted
  end.

Definition sort (xs : list number) : list number := fold_right insert [] xs.

(** A comparator-driven sort, [.sort((a, b) => a - b)], for comparison. *)
Fixpoint insertNumeric (x : Z) (sorted : list Z) : list Z :=
  match sorted with
  | [] => [x]
  | y :: r => if (y <? x)%Z then y :: insertNumeric x r else x :: sorted
  end.

Definition Object_keys (o : object) : list string := map fst o.

Definition arrayObjectToArray (arrayObject : object) : list value :=
  let stringKeys := Object_keys arrayObject in
  let stringKeys := map numberToString (sort (map parseInt stringKeys)) in
  map (fun stringKey =>
         match obj_get stringKey arrayObject with
         | Some v => v
         | None => VUndefined
         end) stringKeys.

End ArrayNormalizer.

(** ** Notions of the specification *)

Module SpecNotions.

Import Where.

(** The positional placeholders of a text: each [$] that is directly
    followed by a digit, with its maximal run of digits. *)
Fixpoint digitPrefix (s : string) : string :=
  match s with
  | EmptyString => EmptyString
  | String c r => if is_digit c then String c (digitPrefix r) else EmptyString
  end.

Fixpoint placeholderTokens (s : string) : list string :=
  match s with
  | EmptyString => []
  | String c r =>
      if Ascii.eqb c "$" then
        match digitPrefix r with
        | EmptyString => placeholderTokens r
        | d => d :: placeholderTokens r
        end
      else placeholderTokens r
  end.

Definition readNumber (digits : string) : N :=
  match NilEmpty.uint_of_string digits with
  | Some u => N.of_uint u
  | None => 0%N
  end.

Definition placeholders (s : string) : list N := map readNumber (placeholderTokens s).

(** [first + 1, first + 2, ..., first + count] *)
Fixpoint numbersFrom (first : N) (count : nat) : list N :=
  match count with
  | O => []
  | S c => (first + 1)%N :: numbersFrom (N.succ first) c
  end.

(** The fragment invariant of the data model. *)
Definition fragmentInvariant (paramsOffset : N) (out : GetParamsForWhereOutput) : Prop :=
  List.length (placeholders (whereSegment out)) = List.length (whereParams out)
  /\ placeholders (whereSegment out)
     = numbersFrom paramsOffset (List.length (whereParams out)).

(** Operators by the branch of the callback that handles them. *)
Definition isNullOperator (op : operator) : bool :=
  opIs op "IS NULL" || opIs op "IS NOT NULL".
Definition isInOperator (op : operator) : bool :=
  opIs op "IN" || opIs op "NOT IN".
Definition isScalarOperator (op : operator) : bool :=
  negb (isNullOperator op) && negb (isInOperator op).

(** The key resolves, and its operator satisfies [p]. *)
Definition resolvesTo (p : operator -> bool) (k : string) : Prop :=
  exists field op, resolve k = Ok (field, op) /\ p op = true.

(** The text of the placeholder numbered [n]. *)
Definition placeholder (n : N) : string := "$" +++ toString n.

(** The separator of the WHERE lines: a line feed, [AND], a line feed. *)
Definition AND : string := String "010" "AND" +++ String "010" EmptyString.

(** The offset in force: the argument, or its default [0]. *)
Definition offsetOf (paramsOffset : option N) : N :=
  match paramsOffset with Some p => p | None => 0%N end.

(** The line of a scalar comparison whose parameter is the [count]-th. *)
Definition scalarLine (paramsOffset count : N) (k : string) : string :=
  match resolve k with
  | Ok (field, op) =>
      CaseConverter.camelToSnakeCaseString field +++ " " +++ render op
      +++ " " +++ placeholder (count + paramsOffset)
  | Throw _ => EmptyString
  end.

(** The lines of scalar comparisons, [count] parameters being there already. *)
Fixpoint scalarLines (paramsOffset count : N) (entries : object) : list string :=
  match entries with
  | [] => []
  | (k, _) :: r =>
      scalarLine paramsOffset (count + 1) k :: scalarLines paramsOffset (count + 1) r
  end.

(** The line of an [IN] / [NOT IN] entry with [count] parameters before it. *)
Definition inLine (paramsOffset count : N) (field : string) (op : operator)
    (elements : list string) : string :=
  CaseConverter.camelToSnakeCaseString field +++ " " +++ render op +++ " ("
  +++ join ", " (map placeholder (numbersFrom (count + paramsOffset) (List.length elements)))
  +++ ")".

(** The operator token of a key: what stands between its first colon and
    its second one (or its end). *)
Definition operatorToken (k : string) : option string := nth_error (split ":" k) 1.

(** The two ways an entry makes the builder fail. *)
Definition invalidOperatorKey (k : string) : Prop :=
  exists token, operatorToken k = Some token /\ lookupOperator token = None.

Definition isString (v : value) : bool :=
  match v with VStr _ => true | _ => false end.

Definition badInValue (k : string) (v : value) : Prop :=
  resolvesTo isInOperator k /\ isString v = false.

Definition entryPasses (e : string * value) : Prop :=
  ~ invalidOperatorKey (fst e) /\ ~ badInValue (fst e) (snd e).

(** The assignments of a SET clause, [first] columns being there already. *)
Fixpoint assignments (first : N) (entries : object) : list string :=
  match entries with
  | [] => []
  | (column, _) :: r =>
      (CaseConverter.camelToSnakeCaseString column +++ "=" +++ placeholder (first + 1))
        :: assignments (N.succ first) r
  end.

(** Numbers in the order of their texts, as [sort()] leaves them. *)
Definition textOrder (a b : ArrayNormalizer.number) : Prop :=
  String.ltb (ArrayNormalizer.numberToString b) (ArrayNormalizer.numberToString a) = false.

(** Lists of pairwise different strings. *)
Fixpoint distinct (l : list string) : bool :=
  match l with
  | [] => true
  | x :: r => negb (existsb (String.eqb x) r) && distinct r
  end.

(** Values a key conversion can be undone on: no array anywhere, and in
    every object pairwise different keys that all satisfy [D]. *)
Fixpoint restorable (D : string -> bool) (v : value) : bool :=
  match v with
  | VArr _ => false
  | VObj es =>
      distinct (map fst es)
      && (fix all (es : list (string * value)) : bool :=
            match es with
            | [] => true
            | (k, x) :: r => D k && restorable D x && all r
            end) es
  | _ => true
  end.

(** The two components of what [getWhereParams] gives, failures kept. *)
Definition segmentOf (r : result GetParamsForWhereOutput) : result string :=
  match r with Ok out => Ok (whereSegment out) | Throw e => Throw e end.

Definition paramsOf (r : result GetParamsForWhereOutput) : result (list value) :=
  match r with Ok out => Ok (whereParams out) | Throw e => Throw e end.

(** What the text of an [IN] line takes from the value: whether it is a
    string, and into how many elements it splits. *)
Definition inShape (v : value) : option nat :=
  match v with
  | VStr s => Some (List.length (split "," s))
  | _ => None
  end.

(** Two entries with the same key, and the same [inShape] when the key
    resolves to [IN] or [NOT IN]. *)
Definition sameShape (e e' : string * value) : Prop :=
  fst e = fst e'
  /\ (resolvesTo isInOperator (fst e) -> inShape (snd e) = inShape (snd e')).

(** The entries that bind a parameter: those that resolve to an operator
    other than [IS NULL] and [IS NOT NULL]. *)
Definition bindsParameter (e : string * value) : bool :=
  match resolve (fst e) with
  | Ok (_, op) => negb (isNullOperator op)
  | Throw _ => false
  end.

(** The segment of two fragments put one after the other. *)
Definition andSegments (first second : string) (firstEmpty secondEmpty : bool) : string :=
  if firstEmpty then second
  else if secondEmpty then first
  else first +++ AND +++ second.

Definition isEmpty {A : Type} (l : list A) : bool :=
  match l with [] => true | _ => false end.

(** The object a driver returns for an array: the elements under the keys
    ["0"], ["1"], ... counted from [i]. *)
Fixpoint arrayEntries (i : N) (xs : list value) : object :=
  match xs with
  | [] => []
  | x :: r => (toString i, x) :: arrayEntries (N.succ i) r
  end.

(** Numbers a double holds exactly and prints in full. *)
Definition safeNumber (x : ArrayNormalizer.number) : bool :=
  match x with
  | ArrayNormalizer.NaN => true
  | ArrayNormalizer.Int z => (Z.abs z <? 2 ^ 53)%Z
  | ArrayNormalizer.Infinity _ => false
  end.

(** Keys that are the text of the number [parseInt] reads in them. *)
Definition canonicalKey (k : string) : bool :=
  String.eqb (ArrayNormalizer.numberToString (ArrayNormalizer.parseInt k)) k
  && safeNumber (ArrayNormalizer.parseInt k).

(** [arrayObject[stringKey]], [undefined] when there is no such property. *)
Definition lookupOr (o : object) (k : string) : value :=
  match obj_get k o with
  | Some v => v
  | None => VUndefined
  end.

(** Below this bound the additions of the source are exact and numbers are
    printed as their decimal numerals: 2^53. *)
Definition safeLimit : N := 9007199254740992.

(** The key resolves to [IN] or [NOT IN]. *)
Definition resolvesToIn (k : string) : bool :=
  match resolve k with
  | Ok (_, op) => isInOperator op
  | Throw _ => false
  end.

(** The operator token of the key names a member that the operator table
    inherits from [Object.prototype]. *)
Definition tokenIsInherited (k : string) : bool :=
  match operatorToken k with
  | Some token => existsb (String.eqb token) (map fst Object_prototype)
  | None => false
  end.

(** The key has an operator token that is no entry of the operator table. *)
Definition unknownOperatorKey (k : string) : Prop :=
  exists token,
    operatorToken k = Some token /\ ~ In token (map fst COMPARISON_OPERATORS_MAP).

Definition entryPassesTable (e : string * value) : Prop :=
  ~ unknownOperatorKey (fst e) /\ ~ badInValue (fst e) (snd e).

(** Keys a key converter stores and the other converter restores. *)
Definition protoKey : string := "__proto__".

Definition camelKey (k : string) : bool :=
  CaseConverter.no_snake_pair k
  && negb (String.eqb k protoKey)
  && negb (String.eqb (CaseConverter.camelToSnakeCaseString k) protoKey).

Definition snakeKey (k : string) : bool :=
  CaseConverter.no_upper k
  && negb (String.eqb k protoKey)
  && negb (String.eqb (CaseConverter.snakeToCamelCaseString k) protoKey).

(** Auxiliary notions for reading placeholders out of a text. *)
Fixpoint allDigits (s : string) : bool :=
  match s with
  | EmptyString => true
  | String c r => is_digit c && allDigits r
  end.

Definition startsNonDigit (s : string) : bool :=
  match s with
  | EmptyString => true
  | String c _ => negb (is_digit c)
  end.

Definition dollarFree (s : string) : bool := negb (includes "$" s).

Definition notInOperator (op : operator) : bool := negb (isInOperator op).

(** The loop invariant behind the fragment invariant: the placeholders of
    the joined lines are the numbers of the parameters pushed so far. *)
Definition linesMatchParams (paramsOffset : N) (lines : list string)
    (params : list value) : Prop :=
  placeholderTokens (join AND lines)
  = map toString (numbersFrom paramsOffset (List.length params)).

(** The specification's reading of the operator token: everything after
    the first colon of the key. *)
Fixpoint afterFirstColon (k : string) : option string :=
  match k with
  | EmptyString => None
  | String c r => if Ascii.eqb c ":" then Some r else afterFirstColon r
  end.

Definition InvalidOperator : error := Error "Invalid comparison operator".

End SpecNotions.

(** * Properties *)

Import CaseConverter KeyConverter Where Insert ArrayNormalizer SpecNotions.

(** ** Characters *)

Ltac by_cases_on_char c :=
  destruct c as [[] [] [] [] [] [] [] []]; vm_compute; try discriminate; auto.

Lemma lower_upper_back (d : ascii) :
  is_lower d = true ->
  is_upper (toUpperCase d) = true /\ toLowerCase (toUpperCase d) = d.
Proof. by_cases_on_char d. Qed.

Lemma snake_char_not_upper (c : ascii) :
  snake_char c = true -> is_upper c = false.
Proof. by_cases_on_char c. Qed.

(** ** Numbers *)

Lemma roundToDouble_exact (n : N) : (n < safeLimit)%N -> roundToDouble n = n.
Proof.
  intros H. unfold roundToDouble.
  assert (S : (N.size n <=? 53)%N = true); [|now rewrite S].
  apply N.leb_le. destruct (N.eq_dec n 0) as [E|E]; [subst; simpl; lia|].
  rewrite (N.size_log2 n E).
  assert (L : (N.log2 n < 53)%N); [|lia].
  apply N.log2_lt_pow2; [lia|exact H].
Qed.

(** What the source prints for [a + b] is the numeral of the sum, as long
    as the sum is below 2^53. *)
Lemma printed_sum (a b : N) :
  (a + b < safeLimit)%N -> numberText (jsAdd a b) = toString (a + b).
Proof.
  intros H. unfold jsAdd. rewrite (roundToDouble_exact _ H). unfold numberText.
  assert (L : (a + b <? 2 ^ 53)%N = true) by (apply N.ltb_lt; exact H).
  now rewrite L.
Qed.

Lemma jsAdd_exact (a b : N) : (a + b < safeLimit)%N -> jsAdd a b = (a + b)%N.
Proof. intros H. unfold jsAdd. now apply roundToDouble_exact. Qed.

(** ** Objects *)

Lemma distinct_NoDup (l : list string) : distinct l = true -> NoDup l.
Proof.
  induction l as [|x r IH]; simpl; intros H; [constructor|].
  apply andb_true_iff in H as [Hx Hr]. constructor; [|auto].
  intros X. apply negb_true_iff in Hx.
  assert (Y : existsb (String.eqb x) r = true).
  { apply existsb_exists. exists x. split; [assumption|apply String.eqb_refl]. }
  congruence.
Qed.

Lemma obj_set_keys (k : string) (v : value) (o : object) (key : string) :
  In key (map fst (obj_set k v o)) <-> key = k \/ In key (map fst o).
Proof.
  induction o as [|[k' v'] r IH]; simpl; [intuition|].
  destruct (String.eqb_spec k' k) as [E|E]; simpl.
  - subst k'. intuition.
  - rewrite IH. intuition.
Qed.

Lemma obj_set_NoDup (k : string) (v : value) (o : object) :
  NoDup (map fst o) -> NoDup (map fst (obj_set k v o)).
Proof.
  induction o as [|[k' v'] r IH]; simpl; intros H.
  - repeat constructor. intros [].
  - inversion H as [|? ? Hn Hr]; subst.
    destruct (String.eqb_spec k' k) as [E|E]; simpl; [now constructor|].
    constructor; [|now apply IH].
    rewrite obj_set_keys. intros [X|X]; [now subst|contradiction].
Qed.

Lemma obj_set_fresh (k : string) (v : value) (o : object) :
  ~ In k (map fst o) -> obj_set k v o = o ++ [(k, v)].
Proof.
  induction o as [|[k' v'] r IH]; simpl; intros H; [reflexivity|].
  destruct (String.eqb_spec k' k) as [E|E]; [exfalso; auto|].
  rewrite IH; [reflexivity|tauto].
Qed.

Lemma define_all_fresh (es : list (string * value)) :
  forall o : object,
    NoDup (map fst es) ->
    (forall k, In k (map fst es) -> ~ In k (map fst o)) ->
    fold_left (fun o e => obj_set (fst e) (snd e) o) es o = o ++ es.
Proof.
  induction es as [|[k v] r IH]; intros o N F; simpl.
  - now rewrite app_nil_r.
  - inversion N as [|? ? Hk Nr]; subst.
    rewrite (obj_set_fresh k v o) by (apply F; now left).
    rewrite IH; [now rewrite <- app_assoc|assumption|].
    intros k' Hin. rewrite map_app, in_app_iff. simpl.
    intros [X|[X|[]]]; [exact (F k' (or_intror Hin) X)|]. now subst.
Qed.

(** An object whose keys are pairwise different and none an array index
    enumerates its properties in the order of their creation. *)
Lemma ownEntries_insertion_order (inserted : list (string * value)) :
  distinct (map fst inserted) = true ->
  forallb (fun k => negb (isArrayIndex k)) (map fst inserted) = true ->
  ownEntries inserted = inserted.
Proof.
  intros D I. unfold ownEntries. cbv zeta.
  rewrite (define_all_fresh inserted []); [|now apply distinct_NoDup|intros k _ []].
  change ([] ++ inserted) with inserted. clear D.
  assert (A : flat_map (fun e : string * value =>
                          match arrayIndex (fst e) with
                          | Some n => [(n, e)]
                          | None => []
                          end) inserted = []
              /\ filter (fun e => negb (isArrayIndex (fst e))) inserted = inserted).
  { induction inserted as [|[k v] r IH]; [split; reflexivity|].
    simpl in I. apply andb_true_iff in I as [Ik Ir]. destruct (IH Ir) as [F G].
    simpl. rewrite Ik, F, G. unfold isArrayIndex in Ik.
    destruct (arrayIndex k); [discriminate|]. split; reflexivity. }
  destruct A as [F G]. now rewrite F, G.
Qed.

(** ** Case converter *)

Lemma supported_subset_no_upper (s : string) :
  supported_subset s = true -> no_upper s = true.
Proof.
  induction s as [|c r IH]; simpl; auto.
  intros H.
  apply andb_true_iff in H as [H Hr].
  apply andb_true_iff in H as [Hc _].
  rewrite (snake_char_not_upper c Hc). simpl. auto.
Qed.

(** Going to camelCase and back is the identity on every string that has no
    uppercase letter: the uppercase letters of the camelCase form are exactly
    the ones the first conversion produced. *)
Lemma snake_camel_snake_pair (s : string) :
  (no_upper s = true ->
   camelToSnakeCaseString (snakeToCamelCaseString s) = s)
  /\ (forall c, no_upper (String c s) = true ->
      camelToSnakeCaseString (snakeToCamelCaseString (String c s)) = String c s).
Proof.
  induction s as [|d r [IHr IHd]].
  - split; [reflexivity|].
    intros c H. simpl in H. rewrite andb_true_r in H.
    apply negb_true_iff in H. simpl. rewrite H. reflexivity.
  - split; [apply IHd|].
    intros c H.
    change (no_upper (String c (String d r)))
      with (negb (is_upper c) && no_upper (String d r)) in H.
    apply andb_true_iff in H as [Hc Hdr]. apply negb_true_iff in Hc.
    change (snakeToCamelCaseString (String c (String d r)))
      with (if Ascii.eqb c "_" && is_lower d
            then String (toUpperCase d) (snakeToCamelCaseString r)
            else String c (snakeToCamelCaseString (String d r))).
    destruct (Ascii.eqb c "_" && is_lower d) eqn:Hm.
    + apply andb_true_iff in Hm as [Hu Hl].
      apply Ascii.eqb_eq in Hu. subst c.
      destruct (lower_upper_back d Hl) as [Hup Hback].
      simpl in Hdr. apply andb_true_iff in Hdr as [_ Hr].
      simpl. rewrite Hup, Hback, (IHr Hr). reflexivity.
    + simpl camelToSnakeCaseString at 1. rewrite Hc.
      f_equal. apply IHd, Hdr.
Qed.

Lemma snake_camel_snake (s : string) :
  no_upper s = true -> camelToSnakeCaseString (snakeToCamelCaseString s) = s.
Proof. apply snake_camel_snake_pair. Qed.

(** C3 (as amended).  For every string made of lowercase letters, digits and
    single underscores not adjacent to digits, converting to camelCase and
    back to snake_case gives the string again:
    [camelToSnakeCaseString (snakeToCamelCaseString s) = s]. *)
Theorem roundtrip_on_supported_subset (s : string) :
  supported_subset s = true ->
  camelToSnakeCaseString (snakeToCamelCaseString s) = s.
Proof.
  intros H. apply snake_camel_snake, supported_subset_no_upper, H.
Qed.

Lemma roundtrip_on_supported_subset_witness :
  supported_subset "first_name" = true
  /\ camelToSnakeCaseString (snakeToCamelCaseString "first_name") = "first_name".
Proof.
  split; [reflexivity | apply (roundtrip_on_supported_subset "first_name"); reflexivity].
Defined.

(** C3 as stated fails: ["a_b"] is in the subset, the first conversion leaves
    it alone and the second one removes the underscore. *)
Lemma roundtrip_other_order_fails :
  supported_subset "a_b" = true
  /\ snakeToCamelCaseString (camelToSnakeCaseString "a_b") = "aB"
  /\ snakeToCamelCaseString (camelToSnakeCaseString "a_b") <> "a_b".
Proof.
  split; [reflexivity|]. split; [reflexivity|]. vm_compute. discriminate.
Qed.

(** [camelToSnakeCaseString] is the identity on strings without an
    uppercase letter. *)
Lemma camelToSnakeCaseString_no_upper (s : string) :
  no_upper s = true -> camelToSnakeCaseString s = s.
Proof.
  induction s as [|c r IH]; simpl; [reflexivity|].
  intros H. apply andb_true_iff in H as [Hc Hr].
  apply negb_true_iff in Hc. now rewrite Hc, (IH Hr).
Qed.

Lemma upper_lower_back (c : ascii) :
  is_upper c = true ->
  is_lower (toLowerCase c) = true /\ toUpperCase (toLowerCase c) = c.
Proof. by_cases_on_char c. Qed.

Lemma snakeToCamelCaseString_cons (c : ascii) (t : string) :
  (forall d t', t = String d t' -> Ascii.eqb c "_" && is_lower d = false) ->
  snakeToCamelCaseString (String c t) = String c (snakeToCamelCaseString t).
Proof.
  intros H. destruct t as [|d t']; [reflexivity|].
  simpl. now rewrite (H d t' eq_refl).
Qed.

(** The other composition, to snake_case and back to camelCase, is the
    identity on every string in which no underscore is directly followed by
    a lowercase letter. *)
Lemma camel_snake_camel (s : string) :
  no_snake_pair s = true ->
  snakeToCamelCaseString (camelToSnakeCaseString s) = s.
Proof.
  induction s as [|c r IH]; [reflexivity|].
  intros H. simpl in H. apply andb_true_iff in H as [Hc Hr].
  specialize (IH Hr). simpl camelToSnakeCaseString.
  destruct (is_upper c) eqn:Hu.
  - destruct (upper_lower_back c Hu) as [Hl Hback].
    simpl. rewrite Hl, Hback, IH. reflexivity.
  - rewrite snakeToCamelCaseString_cons; [now rewrite IH|].
    intros d t' E. destruct r as [|x r0]; [discriminate|].
    simpl in E. destruct (is_upper x) eqn:Hx.
    + inversion E. subst d. now rewrite andb_false_r.
    + inversion E. subst d. now apply negb_true_iff in Hc.
Qed.

Lemma lower_upper_not_lower (d : ascii) :
  is_lower d = true -> is_lower (toUpperCase d) = false.
Proof. by_cases_on_char d. Qed.

Lemma lower_upper_not_underscore (d : ascii) :
  is_lower d = true -> Ascii.eqb (toUpperCase d) "_" = false.
Proof. by_cases_on_char d. Qed.

(** The first character of a camelCase result is the original one or not a
    lowercase letter. *)
Lemma snakeToCamelCaseString_head (d : ascii) (r : string) :
  exists x t,
    snakeToCamelCaseString (String d r) = String x t
    /\ (x = d \/ is_lower x = false).
Proof.
  destruct r as [|e r']; [exists d, EmptyString; auto|].
  simpl. destruct (Ascii.eqb d "_" && is_lower e) eqn:M.
  - apply andb_true_iff in M as [_ Hl].
    eexists; eexists; split; [reflexivity|]. right. now apply lower_upper_not_lower.
  - eexists; eexists; split; [reflexivity|]. now left.
Qed.

Lemma snakeToCamelCaseString_result_pair (s : string) :
  no_snake_pair (snakeToCamelCaseString s) = true
  /\ (forall c, no_snake_pair (snakeToCamelCaseString (String c s)) = true).
Proof.
  induction s as [|d r [IHr IHd]]; [split; reflexivity|].
  split; [apply IHd|]. intros c.
  change (snakeToCamelCaseString (String c (String d r)))
    with (if Ascii.eqb c "_" && is_lower d
          then String (toUpperCase d) (snakeToCamelCaseString r)
          else String c (snakeToCamelCaseString (String d r))).
  destruct (Ascii.eqb c "_" && is_lower d) eqn:M.
  - apply andb_true_iff in M as [_ Hl].
    simpl. rewrite IHr, (lower_upper_not_underscore d Hl).
    now destruct (snakeToCamelCaseString r).
  - destruct (snakeToCamelCaseString_head d r) as [x [t [E H]]].
    specialize (IHd d). rewrite E in *. simpl. simpl in IHd. rewrite IHd.
    rewrite andb_true_r. apply negb_true_iff.
    destruct H as [H|H]; [now subst x|]. rewrite H. apply andb_false_r.
Qed.

(** [snakeToCamelCaseString] never returns [__proto__]. *)
Lemma snakeToCamelCaseString_not_proto (k : string) :
  snakeToCamelCaseString k <> protoKey.
Proof.
  intros E. pose proof (proj1 (snakeToCamelCaseString_result_pair k)) as H.
  rewrite E in H. discriminate.
Qed.

(** ** INSERT fragment builder *)

Lemma insert_forEach_spec (entries : object) :
  forall idx cols pars vals,
    Insert.forEach entries idx cols pars vals
    = (cols ++ map (fun e => camelToSnakeCaseString (fst e)) entries,
       pars ++ map placeholder (numbersFrom idx (List.length entries)),
       vals ++ map snd entries).
Proof.
  induction entries as [|[column value] r IH]; intros idx cols pars vals; simpl.
  - now rewrite !app_nil_r.
  - rewrite IH, <- !app_assoc. reflexivity.
Qed.

(** C8 (as amended).  [getParamsForInsert] returns the comma-joined
    snake_case column names in the order in which [Object.entries]
    enumerates the mapping, the comma-joined placeholders [$1 .. $n] in the
    same order, and the values in the same order.  For a mapping whose keys
    are none of them array indices that order is the insertion order; on
    [{ firstName: "Jo", age: 5 }] the result is ["first_name, age"],
    ["$1, $2"] and [["Jo", 5]]. *)
Theorem getParamsForInsert_spec :
  (forall insertParams : object,
      let out := getParamsForInsert insertParams in
      columnsSegment out
      = join ", " (map (fun e => camelToSnakeCaseString (fst e)) insertParams)
      /\ paramsSegment out
         = join ", " (map placeholder (numbersFrom 0 (List.length insertParams)))
      /\ values out = map snd insertParams)
  /\ (forall inserted : list (string * value),
         distinct (map fst inserted) = true ->
         forallb (fun k => negb (isArrayIndex k)) (map fst inserted) = true ->
         getParamsForInsert (ownEntries inserted)
         = {| columnsSegment :=
                join ", " (map (fun e => camelToSnakeCaseString (fst e)) inserted);
              paramsSegment :=
                join ", " (map placeholder (numbersFrom 0 (List.length inserted)));
              values := map snd inserted |})
  /\ getParamsForInsert (ownEntries [("firstName", VStr "Jo"); ("age", VNum 5)])
     = {| columnsSegment := "first_name, age";
          paramsSegment := "$1, $2";
          values := [VStr "Jo"; VNum 5] |}.
Proof.
  split; [|split; [|reflexivity]].
  - intros insertParams. unfold getParamsForInsert.
    rewrite insert_forEach_spec. simpl. auto.
  - intros inserted D I. rewrite (ownEntries_insertion_order inserted D I).
    unfold getParamsForInsert. rewrite insert_forEach_spec. reflexivity.
Qed.

Lemma getParamsForInsert_spec_witness :
  getParamsForInsert
    (ownEntries [("id", VNum 7); ("homeAddress", VNull); ("zip2", VStr "X1")])
  = {| columnsSegment := "id, home_address, zip2";
       paramsSegment := "$1, $2, $3";
       values := [VNum 7; VNull; VStr "X1"] |}.
Proof.
  apply (proj1 (proj2 getParamsForInsert_spec)
           [("id", VNum 7); ("homeAddress", VNull); ("zip2", VStr "X1")]);
    reflexivity.
Defined.

(** C8 as stated fails for a key that is an array index: it is enumerated
    before the keys inserted ahead of it. *)
Lemma insert_order_claim_fails :
  getParamsForInsert (ownEntries [("b", VNum 1); ("2", VStr "two")])
  = {| columnsSegment := "2, b";
       paramsSegment := "$1, $2";
       values := [VStr "two"; VNum 1] |}
  /\ map snd [("b", VNum 1); ("2", VStr "two")] <> [VStr "two"; VNum 1].
Proof. split; [reflexivity|discriminate]. Qed.

(** ** SET fragment builder *)

Lemma forEachSet_spec (entries : object) :
  forall idx tokens vals,
    forEachSet entries idx tokens vals
    = (tokens ++ assignments idx entries, vals ++ map snd entries).
Proof.
  induction entries as [|[column value] r IH]; intros idx tokens vals; simpl.
  - now rewrite !app_nil_r.
  - rewrite IH, <- !app_assoc. reflexivity.
Qed.

(** [getParamsForSet] returns the comma-joined assignments
    [<snake_case column>=$i] in the mapping's order and the values in the
    same order. *)
Lemma getParamsForSet_spec (setParams : object) :
  getParamsForSet setParams
  = {| sqlSegment := join ", " (assignments 0 setParams);
       setValues := map snd setParams |}.
Proof. unfold getParamsForSet. now rewrite forEachSet_spec. Qed.

(** ** WHERE-clause fragment builder: the branches of the callback *)

Lemma len_push {A : Type} (l : list A) (x : A) : len (l ++ [x]) = (len l + 1)%N.
Proof. unfold len. rewrite length_app. simpl. lia. Qed.

Lemma in_operator_not_null (op : operator) :
  isInOperator op = true -> isNullOperator op = false.
Proof.
  destruct op as [t|r]; unfold isInOperator, isNullOperator; simpl; [|discriminate].
  intros H. apply orb_true_iff in H as [H|H]; apply String.eqb_eq in H; subst t; reflexivity.
Qed.

Lemma in_operator_text (op : operator) :
  isInOperator op = true -> render op = "IN" \/ render op = "NOT IN".
Proof.
  destruct op as [t|r]; unfold isInOperator; simpl; [|discriminate].
  intros H. apply orb_true_iff in H as [H|H]; apply String.eqb_eq in H; auto.
Qed.

(** The placeholders of an [IN] list only depend on how long the list is. *)
Lemma placeholdersFrom_length (count p : N) (arrayParam arrayParam' : list string) :
  List.length arrayParam = List.length arrayParam' ->
  forall i, placeholdersFrom count p i arrayParam = placeholdersFrom count p i arrayParam'.
Proof.
  revert arrayParam'.
  induction arrayParam as [|x r IH]; intros [|y r'] L i; try discriminate; [reflexivity|].
  simpl. f_equal. apply IH. simpl in L. lia.
Qed.

Lemma placeholdersFrom_spec (count p : N) (arrayParam : list string) :
  forall i,
    (count + p + i + N.of_nat (List.length arrayParam) < safeLimit)%N ->
    placeholdersFrom count p i arrayParam
    = map placeholder (numbersFrom (count + p + i) (List.length arrayParam)).
Proof.
  induction arrayParam as [|x r IH]; intros i B; [reflexivity|].
  cbn [placeholdersFrom List.length numbersFrom map].
  simpl List.length in B.
  rewrite IH by lia.
  rewrite (jsAdd_exact count p) by lia.
  rewrite (jsAdd_exact (count + p) i) by lia.
  rewrite printed_sum by lia.
  unfold placeholder at 2.
  replace (N.succ (count + p + i)) with (count + p + N.succ i)%N by lia. reflexivity.
Qed.

Lemma callback_null p lines params k v field op :
  resolve k = Ok (field, op) -> isNullOperator op = true ->
  callback p lines params k v
  = Ok (lines ++ [camelToSnakeCaseString field +++ " " +++ render op], params).
Proof.
  intros Hr Hn. unfold callback. rewrite Hr.
  unfold isNullOperator in Hn. rewrite Hn. reflexivity.
Qed.

(** The [IN] branch, with the numbers as the source computes them. *)
Lemma callback_in_computed p lines params k s field op :
  resolve k = Ok (field, op) -> isInOperator op = true ->
  callback p lines params k (VStr s)
  = Ok (lines ++
          [camelToSnakeCaseString field +++ " " +++ render op +++ " ("
           +++ join ", " (placeholdersFrom (len params) p 0 (split "," s)) +++ ")"],
        params ++ [VArr (map VStr (split "," s))]).
Proof.
  intros Hr Hi. unfold callback. rewrite Hr.
  pose proof (in_operator_not_null op Hi) as Hn.
  unfold isNullOperator in Hn. rewrite Hn.
  unfold isInOperator in Hi. rewrite Hi. reflexivity.
Qed.

Lemma callback_in p lines params k s field op :
  resolve k = Ok (field, op) -> isInOperator op = true ->
  (len params + p + N.of_nat (List.length (split "," s)) < safeLimit)%N ->
  callback p lines params k (VStr s)
  = Ok (lines ++ [inLine p (len params) field op (split "," s)],
        params ++ [VArr (map VStr (split "," s))]).
Proof.
  intros Hr Hi B. rewrite (callback_in_computed p lines params k s field op Hr Hi).
  rewrite placeholdersFrom_spec by lia. rewrite N.add_0_r. reflexivity.
Qed.

Lemma callback_in_not_string p lines params k v field op :
  resolve k = Ok (field, op) -> isInOperator op = true -> isString v = false ->
  callback p lines params k v = Throw TypeError.
Proof.
  intros Hr Hi Hv. unfold callback. rewrite Hr.
  pose proof (in_operator_not_null op Hi) as Hn.
  unfold isNullOperator in Hn. rewrite Hn.
  unfold isInOperator in Hi. rewrite Hi.
  destruct v; try reflexivity; discriminate.
Qed.

(** The branch of the other operators, with the number as the source
    computes it. *)
Lemma callback_scalar_computed p lines params k v field op :
  resolve k = Ok (field, op) -> isScalarOperator op = true ->
  callback p lines params k v
  = Ok (lines ++ [camelToSnakeCaseString field +++ " " +++ render op
                  +++ " $" +++ numberText (jsAdd (len params + 1) p)],
        params ++ [v]).
Proof.
  intros Hr Hs. unfold callback. rewrite Hr.
  unfold isScalarOperator in Hs. apply andb_true_iff in Hs as [Hn Hi].
  apply negb_true_iff in Hn. apply negb_true_iff in Hi.
  unfold isNullOperator in Hn. unfold isInOperator in Hi. rewrite Hn, Hi.
  rewrite len_push. reflexivity.
Qed.

Lemma callback_scalar p lines params k v field op :
  resolve k = Ok (field, op) -> isScalarOperator op = true ->
  (len params + 1 + p < safeLimit)%N ->
  callback p lines params k v
  = Ok (lines ++ [camelToSnakeCaseString field +++ " " +++ render op
                  +++ " " +++ placeholder (len params + 1 + p)],
        params ++ [v]).
Proof.
  intros Hr Hs B. rewrite (callback_scalar_computed p lines params k v field op Hr Hs).
  now rewrite printed_sum.
Qed.

Lemma forEach_app p es1 es2 :
  forall lines params,
    Where.forEach p (es1 ++ es2) lines params
    = match Where.forEach p es1 lines params with
      | Ok (lines', params') => Where.forEach p es2 lines' params'
      | Throw e => Throw e
      end.
Proof.
  induction es1 as [|[k v] r IH]; intros lines params; simpl; [reflexivity|].
  destruct (callback p lines params k v) as [[lines' params']|e]; auto.
Qed.

(** ** Scalar comparisons *)

Lemma forEach_scalar p es :
  Forall (fun e => resolvesTo isScalarOperator (fst e)) es ->
  forall lines params,
    (p + len params + len es < safeLimit)%N ->
    Where.forEach p es lines params
    = Ok (lines ++ scalarLines p (len params) es, params ++ map snd es).
Proof.
  induction 1 as [|[k v] r [field [op [Hr Hs]]] _ IH]; intros lines params B; simpl.
  - now rewrite !app_nil_r.
  - simpl in Hr. unfold len in B. simpl List.length in B.
    rewrite (callback_scalar p lines params k v field op Hr Hs) by (unfold len; lia).
    rewrite IH by (rewrite len_push; unfold len; lia).
    rewrite len_push, <- !app_assoc. simpl.
    unfold scalarLine. rewrite Hr. reflexivity.
Qed.

(** C6 (as amended).  When every entry resolves to a scalar comparison
    operator and the offset plus the number of entries is below 2^53,
    [getWhereParams] emits per entry, in the order in which [Object.entries]
    enumerates the mapping, the line [<snake_case field> <operator> $k] with
    [k] the running parameter count plus the offset, joins the lines with a
    line feed, [AND] and a line feed, and returns the values in that order.
    For a mapping none of whose keys is an array index that order is the
    insertion order.  [{ "age:gte": 18, "age:lt": 65 }] gives
    [age >= $1 / AND / age < $2] with [[18, 65]]; offset 2 on [{ a: 1 }]
    gives [$3]; the empty mapping gives the empty segment and no parameter. *)
Theorem getWhereParams_scalar_entries :
  (forall (entries : object) (paramsOffset : option N),
      Forall (fun e => resolvesTo isScalarOperator (fst e)) entries ->
      (offsetOf paramsOffset + len entries < safeLimit)%N ->
      getWhereParams entries paramsOffset
      = Ok {| whereSegment := join AND (scalarLines (offsetOf paramsOffset) 0 entries);
              whereParams := map snd entries |})
  /\ (forall (inserted : list (string * value)) (paramsOffset : option N),
         distinct (map fst inserted) = true ->
         forallb (fun k => negb (isArrayIndex k)) (map fst inserted) = true ->
         Forall (fun e => resolvesTo isScalarOperator (fst e)) inserted ->
         (offsetOf paramsOffset + len inserted < safeLimit)%N ->
         getWhereParams (ownEntries inserted) paramsOffset
         = Ok {| whereSegment :=
                   join AND (scalarLines (offsetOf paramsOffset) 0 inserted);
                 whereParams := map snd inserted |})
  /\ getWhereParams (ownEntries [("age:gte", VNum 18); ("age:lt", VNum 65)]) None
     = Ok {| whereSegment := "age >= $1" +++ AND +++ "age < $2";
             whereParams := [VNum 18; VNum 65] |}
  /\ getWhereParams (ownEntries [("a", VNum 1)]) (Some 2%N)
     = Ok {| whereSegment := "a = $3"; whereParams := [VNum 1] |}
  /\ (forall paramsOffset : option N,
         getWhereParams (ownEntries []) paramsOffset
         = Ok {| whereSegment := EmptyString; whereParams := [] |}).
Proof.
  assert (G : forall (entries : object) (paramsOffset : option N),
             Forall (fun e => resolvesTo isScalarOperator (fst e)) entries ->
             (offsetOf paramsOffset + len entries < safeLimit)%N ->
             getWhereParams entries paramsOffset
             = Ok {| whereSegment :=
                       join AND (scalarLines (offsetOf paramsOffset) 0 entries);
                     whereParams := map snd entries |}).
  { intros entries paramsOffset H B. unfold getWhereParams.
    fold (offsetOf paramsOffset).
    rewrite (forEach_scalar (offsetOf paramsOffset) entries H)
      by (unfold len at 1; simpl; lia).
    reflexivity. }
  split; [exact G|].
  split; [|split; [reflexivity|split; [reflexivity|intros [p|]; reflexivity]]].
  intros inserted paramsOffset D I H B.
  rewrite (ownEntries_insertion_order inserted D I). now apply G.
Qed.

Lemma getWhereParams_scalar_entries_witness :
  getWhereParams (ownEntries [("firstName:like", VStr "J%"); ("age", VNum 5)]) (Some 4%N)
  = Ok {| whereSegment := "first_name LIKE $5" +++ AND +++ "age = $6";
          whereParams := [VStr "J%"; VNum 5] |}.
Proof.
  apply (proj1 (proj2 getWhereParams_scalar_entries)
           [("firstName:like", VStr "J%"); ("age", VNum 5)] (Some 4%N)).
  - reflexivity.
  - reflexivity.
  - repeat constructor; simpl; unfold resolvesTo; eexists; eexists; split; reflexivity.
  - reflexivity.
Defined.

(** C6 as stated fails two ways: a key that is an array index is enumerated
    before the keys inserted ahead of it, and at offset 2^53 the sum of the
    parameter count and the offset is no longer exact. *)
Lemma scalar_entries_claim_fails :
  (getWhereParams (ownEntries [("b", VNum 1); ("2", VNum 2)]) None
   = Ok {| whereSegment := "2 = $1" +++ AND +++ "b = $2";
           whereParams := [VNum 2; VNum 1] |}
   /\ map snd [("b", VNum 1); ("2", VNum 2)] <> [VNum 2; VNum 1])
  /\ (getWhereParams [("a", VNum 1)] (Some (2 ^ 53)%N)
      = Ok {| whereSegment := "a = $9007199254740992"; whereParams := [VNum 1] |}
      /\ (1 + 2 ^ 53 = 9007199254740993)%N).
Proof.
  split; split; try (vm_compute; reflexivity). discriminate.
Qed.

(** ** IN and NOT IN *)

(** The callback only adds to the arrays: one line, and at most one
    parameter. *)
Lemma callback_appends p lines params k v l q :
  callback p lines params k v = Ok (l, q) ->
  exists line q',
    l = lines ++ [line] /\ q = params ++ q' /\ List.length q' <= 1.
Proof.
  unfold callback. destruct (resolve k) as [[field op]|e]; [|discriminate].
  destruct (opIs op "IS NULL" || opIs op "IS NOT NULL").
  - intros E. inversion E. eexists; exists []. rewrite app_nil_r. simpl. auto.
  - destruct (opIs op "IN" || opIs op "NOT IN").
    + destruct v; try discriminate. intros E. inversion E.
      eexists; eexists; repeat split; simpl; auto.
    + intros E. inversion E. eexists; eexists; repeat split; simpl; auto.
Qed.

Lemma forEach_appends p es :
  forall lines params l q,
    Where.forEach p es lines params = Ok (l, q) ->
    exists l' q',
      l = lines ++ l' /\ q = params ++ q'
      /\ List.length l' = List.length es /\ List.length q' <= List.length es.
Proof.
  induction es as [|[k v] r IH]; intros lines params l q; simpl.
  - intros E. inversion E. exists [], []. rewrite !app_nil_r. auto.
  - destruct (callback p lines params k v) as [[l1 q1]|e] eqn:C; [|discriminate].
    destruct (callback_appends _ _ _ _ _ _ _ C) as [line [q0 [El [Eq Lq]]]]. subst l1 q1.
    intros E. destruct (IH _ _ _ _ E) as [l' [q' [El' [Eq' [Ll Lq']]]]]. subst l q.
    exists (line :: l'), (q0 ++ q'). rewrite <- !app_assoc, length_app. simpl.
    repeat split; auto; lia.
Qed.

(** C5 (as amended).  An entry whose operator is [IN] or [NOT IN] and whose
    value is a string, wherever it stands in the mapping, has its value split
    on commas; its line is [<snake_case field> <operator> ($k, $k+1, ...)]
    with one placeholder per element, numbered on from the parameters
    already there plus the offset (these numbers being below 2^53), and the
    whole list is pushed as one parameter.  [{ "status:in": "a,b,c" }] gives
    the three placeholders [$1, $2, $3] and the parameters
    [[["a","b","c"]]]. *)
Theorem getWhereParams_in_entries :
  (forall (paramsOffset : option N) (before after : object) k field op s out,
      resolve k = Ok (field, op) ->
      isInOperator op = true ->
      (offsetOf paramsOffset + len before + N.of_nat (List.length (split "," s))
       < safeLimit)%N ->
      getWhereParams (before ++ (k, VStr s) :: after) paramsOffset = Ok out ->
      (render op = "IN" \/ render op = "NOT IN")
      /\ exists lines params lines' params',
          Where.forEach (offsetOf paramsOffset) before [] [] = Ok (lines, params)
          /\ whereSegment out
             = join AND
                 (lines ++ inLine (offsetOf paramsOffset) (len params) field op
                             (split "," s) :: lines')
          /\ whereParams out = params ++ VArr (map VStr (split "," s)) :: params'
          /\ List.length lines' = List.length after)
  /\ getWhereParams [("status:in", VStr "a,b,c")] None
     = Ok {| whereSegment := "status IN ($1, $2, $3)";
             whereParams := [VArr [VStr "a"; VStr "b"; VStr "c"]] |}
  /\ placeholders "status IN ($1, $2, $3)" = [1; 2; 3]%N.
Proof.
  split; [|split; reflexivity].
  intros paramsOffset before after k field op s out Hr Hi B H.
  split; [apply in_operator_text, Hi|].
  unfold getWhereParams in H. fold (offsetOf paramsOffset) in H.
  rewrite forEach_app in H.
  destruct (Where.forEach (offsetOf paramsOffset) before [] []) as [[l1 q1]|e] eqn:F1;
    [|discriminate].
  destruct (forEach_appends _ _ _ _ _ _ F1) as [l0 [q0 [_ [Eq0 [_ Lq0]]]]].
  simpl in Eq0. subst q0.
  simpl Where.forEach in H.
  rewrite (callback_in _ l1 q1 k s field op Hr Hi) in H by (unfold len in *; lia).
  destruct (Where.forEach _ after _ _) as [[l q]|e] eqn:F2; [|discriminate].
  destruct (forEach_appends _ _ _ _ _ _ F2) as [l' [q' [El [Eq [Ll _]]]]].
  inversion H. simpl. subst l q.
  exists l1, q1, l', q'. rewrite <- !app_assoc. simpl. auto.
Qed.

Lemma getWhereParams_in_entries_witness :
  (render (OpText "NOT IN") = "IN" \/ render (OpText "NOT IN") = "NOT IN")
  /\ exists lines params lines' params',
      Where.forEach 1 [("a", VNum 1)] [] [] = Ok (lines, params)
      /\ whereSegment
           {| whereSegment :=
                "a = $2" +++ AND +++ "order_status NOT IN ($3, $4)" +++ AND
                +++ "b IS NULL";
              whereParams := [VNum 1; VArr [VStr "x"; VStr "y"]] |}
         = join AND (lines ++ inLine 1 (len params) "orderStatus" (OpText "NOT IN")
                                (split "," "x,y") :: lines')
      /\ whereParams
           {| whereSegment :=
                "a = $2" +++ AND +++ "order_status NOT IN ($3, $4)" +++ AND
                +++ "b IS NULL";
              whereParams := [VNum 1; VArr [VStr "x"; VStr "y"]] |}
         = params ++ VArr (map VStr (split "," "x,y")) :: params'
      /\ List.length lines' = List.length [("b:isNull", VNull)].
Proof.
  apply (proj1 getWhereParams_in_entries (Some 1%N) [("a", VNum 1)]
           [("b:isNull", VNull)] "orderStatus:notIn" "orderStatus" (OpText "NOT IN")
           "x,y"); reflexivity.
Defined.

(** C5 as stated fails two ways: the value of an [IN] entry need not be a
    string, and then the builder fails instead of splitting it; and at offset
    2^53 the placeholders of a list are not numbered contiguously. *)
Lemma in_entries_claim_fails :
  getWhereParams [("x:in", VNum 1)] None = Throw TypeError
  /\ getWhereParams [("x:in", VStr "a,b,c")] (Some (2 ^ 53)%N)
     = Ok {| whereSegment :=
               "x IN ($9007199254740992, $9007199254740992, $9007199254740996)";
             whereParams := [VArr [VStr "a"; VStr "b"; VStr "c"]] |}.
Proof. split; vm_compute; reflexivity. Qed.

(** ** IS NULL and IS NOT NULL *)

(** C10.  The value of an entry whose operator is [IS NULL] or [IS NOT NULL]
    has no influence: the callback appends one line and leaves the parameters
    as they are whatever the value, and two mappings that differ only in the
    value of such an entry give the same result. *)
Theorem null_entries_ignore_value (k : string) :
  resolvesTo isNullOperator k ->
  (forall p lines params v,
      exists line, forall v',
        callback p lines params k v = Ok (lines ++ [line], params)
        /\ callback p lines params k v' = callback p lines params k v)
  /\ (forall (before after : object) v v' paramsOffset,
         getWhereParams (before ++ (k, v) :: after) paramsOffset
         = getWhereParams (before ++ (k, v') :: after) paramsOffset).
Proof.
  intros [field [op [Hr Hn]]]. split.
  - intros p lines params v.
    exists (camelToSnakeCaseString field +++ " " +++ render op). intros v'.
    now rewrite !(callback_null p lines params k _ field op Hr Hn).
  - intros before after v v' paramsOffset. unfold getWhereParams.
    rewrite !forEach_app.
    destruct (Where.forEach _ before [] []) as [[lines params]|e]; [|reflexivity].
    simpl. now rewrite !(callback_null _ lines params k _ field op Hr Hn).
Qed.

Lemma null_entries_ignore_value_witness :
  getWhereParams [("a", VNum 1); ("deletedAt:isNull", VNull); ("b", VNum 2)] None
  = getWhereParams [("a", VNum 1); ("deletedAt:isNull", VStr "x"); ("b", VNum 2)] None.
Proof.
  apply (proj2 (null_entries_ignore_value "deletedAt:isNull"
                  (ex_intro _ "deletedAt" (ex_intro _ (OpText "IS NULL") (conj eq_refl eq_refl))))
           [("a", VNum 1)] [("b", VNum 2)] VNull (VStr "x") None).
Defined.

(** ** Failures of the WHERE builder *)

Lemma split_no_includes (c : ascii) (s : string) :
  includes c s = false -> split c s = [s].
Proof.
  induction s as [|a r IH]; simpl; [reflexivity|].
  intros H. apply orb_false_iff in H as [Ha Hr].
  rewrite Ha, (IH Hr). reflexivity.
Qed.

Lemma split_includes (c : ascii) (s : string) :
  includes c s = true -> exists a b t, split c s = a :: b :: t.
Proof.
  induction s as [|x r IH]; simpl; [discriminate|].
  destruct (Ascii.eqb x c); simpl.
  - intros _. destruct r as [|y r']; simpl.
    + now exists EmptyString, EmptyString, [].
    + destruct (Ascii.eqb y c); [now eauto|].
      destruct (split c r') as [|h t]; now eauto.
  - intros H. destruct (IH H) as [a [b [t E]]]. rewrite E. now eauto.
Qed.

(** A key has an operator token exactly when it contains a colon. *)
Lemma operatorToken_includes (k : string) :
  (exists token, operatorToken k = Some token) <-> includes ":" k = true.
Proof.
  unfold operatorToken. split.
  - intros [token H]. destruct (includes ":" k) eqn:E; [reflexivity|].
    rewrite (split_no_includes _ _ E) in H. discriminate.
  - intros H. destruct (split_includes _ _ H) as [a [b [t E]]].
    rewrite E. now exists b.
Qed.

Lemma table_texts_truthy (token text : string) :
  assoc token COMPARISON_OPERATORS_MAP = Some text ->
  String.eqb text EmptyString = false.
Proof.
  unfold COMPARISON_OPERATORS_MAP. cbn [assoc].
  repeat (destruct (String.eqb _ token); [intros H; inversion H; reflexivity|]).
  discriminate.
Qed.

Lemma lookupOperator_truthy (token : string) (op : operator) :
  lookupOperator token = Some op -> truthy op = true.
Proof.
  unfold lookupOperator.
  destruct (assoc token COMPARISON_OPERATORS_MAP) as [text|] eqn:E.
  - intros H. inversion H. simpl. now rewrite (table_texts_truthy token text E).
  - destruct (assoc token Object_prototype); intros H; inversion H; reflexivity.
Qed.

Lemma assoc_none (k : string) (l : list (string * string)) :
  assoc k l = None <-> ~ In k (map fst l).
Proof.
  induction l as [|[k' v] r IH]; simpl; [tauto|].
  destruct (String.eqb_spec k' k) as [E|E].
  - split; [discriminate|]. intros H. exfalso. apply H. now left.
  - rewrite IH. tauto.
Qed.

(** The three outcomes of [resolve]. *)
Lemma resolve_cases (k : string) :
  (includes ":" k = false /\ resolve k = Ok (k, OpText "="))
  \/ (exists token op,
         operatorToken k = Some token /\ lookupOperator token = Some op
         /\ resolve k = Ok (nth 0 (split ":" k) EmptyString, op))
  \/ (exists token,
         operatorToken k = Some token /\ lookupOperator token = None
         /\ resolve k = Throw InvalidOperator).
Proof.
  unfold resolve. destruct (includes ":" k) eqn:Hc; [right|left; auto].
  apply operatorToken_includes in Hc as [token Ht].
  unfold operatorToken in *. rewrite Ht.
  destruct (lookupOperator token) as [op|] eqn:Hl.
  - left. exists token, op. rewrite (lookupOperator_truthy token op Hl). auto.
  - right. exists token. auto.
Qed.

Lemma resolve_throw (k : string) (e : error) :
  resolve k = Throw e <-> e = InvalidOperator /\ invalidOperatorKey k.
Proof.
  unfold invalidOperatorKey.
  destruct (resolve_cases k) as [[Hc R]|[[token [op [Ht [Hl R]]]]|[token [Ht [Hl R]]]]];
    rewrite R; split.
  - discriminate.
  - intros [_ [token [Ht _]]].
    assert (H : includes ":" k = true) by (apply operatorToken_includes; eauto).
    rewrite Hc in H. discriminate.
  - discriminate.
  - intros [_ [token' [Ht' Hl']]]. rewrite Ht in Ht'. inversion Ht'. subst token'.
    rewrite Hl in Hl'. discriminate.
  - intros H. inversion H. split; [reflexivity|]. exists token. auto.
  - intros [H _]. subst e. reflexivity.
Qed.

Lemma callback_throw p lines params k v (e : error) :
  callback p lines params k v = Throw e
  <-> (e = InvalidOperator /\ invalidOperatorKey k) \/ (e = TypeError /\ badInValue k v).
Proof.
  destruct (resolve k) as [[field op]|e0] eqn:Hr.
  - assert (Hinv : ~ invalidOperatorKey k).
    { intros H. assert (X : resolve k = Throw InvalidOperator)
        by (apply resolve_throw; auto).
      rewrite Hr in X. discriminate. }
    destruct (isNullOperator op) eqn:Hn;
      [|destruct (isInOperator op) eqn:Hi; [destruct (isString v) eqn:Hv|]].
    + rewrite (callback_null p lines params k v field op Hr Hn). split; [discriminate|].
      intros [[_ H]|[_ [[f' [op' [Hr' Hi']]] _]]]; [tauto|].
      rewrite Hr in Hr'. inversion Hr'. subst.
      rewrite (in_operator_not_null _ Hi') in Hn. discriminate.
    + destruct v; try discriminate.
      rewrite (callback_in_computed p lines params k s field op Hr Hi). split; [discriminate|].
      intros [[_ H]|[_ [_ H]]]; [tauto|discriminate].
    + rewrite (callback_in_not_string p lines params k v field op Hr Hi Hv). split.
      * intros H. inversion H. right. split; [reflexivity|].
        split; [exists field, op; auto|assumption].
      * intros [[_ H]|[H _]]; [tauto|now subst].
    + rewrite (callback_scalar_computed p lines params k v field op Hr).
      2:{ unfold isScalarOperator. now rewrite Hn, Hi. }
      split; [discriminate|].
      intros [[_ H]|[_ [[f' [op' [Hr' Hi']]] _]]]; [tauto|].
      rewrite Hr in Hr'. inversion Hr'. subst. rewrite Hi in Hi'. discriminate.
  - unfold callback. rewrite Hr.
    apply resolve_throw in Hr as [He0 Hinv]. subst e0. split.
    + intros H. inversion H. auto.
    + intros [[H _]|[_ [[f' [op' [Hr' _]]] _]]]; [now subst|].
      assert (X : resolve k = Throw InvalidOperator) by (apply resolve_throw; auto).
      rewrite Hr' in X. discriminate.
Qed.

Lemma callback_ok_passes p lines params k v st :
  callback p lines params k v = Ok st -> entryPasses (k, v).
Proof.
  intros H. split; simpl; intros X.
  - assert (Y : callback p lines params k v = Throw InvalidOperator)
      by (apply callback_throw; auto).
    rewrite H in Y. discriminate.
  - assert (Y : callback p lines params k v = Throw TypeError)
      by (apply callback_throw; auto).
    rewrite H in Y. discriminate.
Qed.

Lemma callback_passes_ok p lines params k v :
  entryPasses (k, v) -> exists st, callback p lines params k v = Ok st.
Proof.
  intros [H1 H2]. simpl in *.
  destruct (callback p lines params k v) as [st|e] eqn:E; [eauto|].
  apply callback_throw in E as [[_ X]|[_ X]]; tauto.
Qed.

Lemma forEach_throw p es (e : error) :
  forall lines params,
    Where.forEach p es lines params = Throw e
    <-> exists before k v after,
        es = before ++ (k, v) :: after
        /\ Forall entryPasses before
        /\ ((e = InvalidOperator /\ invalidOperatorKey k)
            \/ (e = TypeError /\ badInValue k v)).
Proof.
  induction es as [|[k v] r IH]; intros lines params; simpl.
  - split; [discriminate|].
    intros [before [k [v [after [E _]]]]]. destruct before; discriminate.
  - destruct (callback p lines params k v) as [[lines' params']|e0] eqn:Hc.
    + rewrite IH. split.
      * intros [before [k' [v' [after [E [F D]]]]]].
        exists ((k, v) :: before), k', v', after.
        split; [simpl; now rewrite E|]. split; [|assumption].
        constructor; [eapply callback_ok_passes; eauto|assumption].
      * intros [before [k' [v' [after [E [F D]]]]]].
        destruct before as [|b before']; simpl in E; inversion E; subst.
        -- apply (callback_throw p lines params) in D. rewrite Hc in D. discriminate.
        -- inversion F; subst. exists before', k', v', after. auto.
    + split.
      * intros H. inversion H. subst e0. exists [], k, v, r.
        split; [reflexivity|]. split; [constructor|].
        apply (callback_throw p lines params), Hc.
      * intros [before [k' [v' [after [E [F D]]]]]].
        destruct before as [|b before']; simpl in E; inversion E; subst.
        -- apply (callback_throw p lines params) in D. congruence.
        -- inversion F; subst.
           destruct (callback_passes_ok p lines params k v) as [st X]; [assumption|].
           congruence.
Qed.

Lemma getWhereParams_throw (entries : object) (paramsOffset : option N) (e : error) :
  getWhereParams entries paramsOffset = Throw e
  <-> Where.forEach (offsetOf paramsOffset) entries [] [] = Throw e.
Proof.
  unfold getWhereParams. fold (offsetOf paramsOffset).
  destruct (Where.forEach _ entries [] []) as [[lines params]|e0];
    split; intros H; inversion H; reflexivity.
Qed.

Lemma lookupOperator_none (token : string) :
  lookupOperator token = None
  <-> ~ In token (map fst COMPARISON_OPERATORS_MAP)
      /\ ~ In token (map fst Object_prototype).
Proof.
  unfold lookupOperator. rewrite <- !assoc_none.
  destruct (assoc token COMPARISON_OPERATORS_MAP);
    destruct (assoc token Object_prototype); split;
    try discriminate; try tauto; intros [? ?]; discriminate.
Qed.

(** For a key whose token does not name an inherited member, the lookup
    finds nothing exactly when the token is no entry of the table. *)
Lemma invalid_unknown (k : string) :
  tokenIsInherited k = false -> (invalidOperatorKey k <-> unknownOperatorKey k).
Proof.
  unfold tokenIsInherited, invalidOperatorKey, unknownOperatorKey. intros H. split.
  - intros [token [Ht Hl]]. exists token. split; [assumption|].
    now apply lookupOperator_none in Hl.
  - intros [token [Ht Hn]]. exists token. split; [assumption|].
    apply lookupOperator_none. split; [assumption|].
    rewrite Ht in H. intros X.
    assert (Y : existsb (String.eqb token) (map fst Object_prototype) = true).
    { apply existsb_exists. exists token. split; [assumption|apply String.eqb_refl]. }
    congruence.
Qed.

Lemma passes_table (es : list (string * value)) :
  Forall (fun e => tokenIsInherited (fst e) = false) es ->
  (Forall entryPasses es <-> Forall entryPassesTable es).
Proof.
  induction 1 as [|e r He _ IH]; [split; constructor|].
  split; intros F; inversion F as [|? ? [P1 P2] Fr]; subst; constructor.
  - split; [|assumption]. intros X. apply P1. now apply invalid_unknown.
  - now apply IH.
  - split; [|assumption]. intros X. apply P1. now apply invalid_unknown.
  - now apply IH.
Qed.

(** C7 (as amended).  For mappings in which no operator token names a
    member inherited from [Object.prototype]: the operator token of a key is
    what stands between its first colon and its second one;
    [getWhereParams] raises InvalidOperator exactly when the first entry that
    fails has a key with a colon whose token is no entry of the operator
    table; it raises a TypeError exactly when the first entry that fails has
    the operator [IN] or [NOT IN] and a value that is not a string; these are
    its only failures, and it returns when no entry fails.  A key without a
    colon never makes it raise InvalidOperator and is treated as equality. *)
Theorem getWhereParams_failure_modes (entries : object) (paramsOffset : option N) :
  Forall (fun e => tokenIsInherited (fst e) = false) entries ->
  (getWhereParams entries paramsOffset = Throw InvalidOperator
   <-> exists before k v after,
       entries = before ++ (k, v) :: after
       /\ Forall entryPassesTable before /\ unknownOperatorKey k)
  /\ (getWhereParams entries paramsOffset = Throw TypeError
      <-> exists before k v after,
          entries = before ++ (k, v) :: after
          /\ Forall entryPassesTable before /\ badInValue k v)
  /\ (forall e : error,
         getWhereParams entries paramsOffset = Throw e ->
         e = InvalidOperator \/ e = TypeError)
  /\ (Forall entryPassesTable entries ->
      exists out, getWhereParams entries paramsOffset = Ok out)
  /\ (forall k : string,
         includes ":" k = false ->
         ~ unknownOperatorKey k /\ resolve k = Ok (k, OpText "=")).
Proof.
  intros I.
  assert (Sub : forall before k v after,
             entries = before ++ (k, v) :: after ->
             Forall (fun e => tokenIsInherited (fst e) = false) before
             /\ tokenIsInherited k = false).
  { intros before k v after E. subst entries.
    apply Forall_app in I as [I1 I2]. inversion I2; subst. auto. }
  split; [|split; [|split; [|split]]].
  - split.
    + intros H. apply getWhereParams_throw, forEach_throw in H.
      destruct H as [before [k [v [after [E [F [[_ D]|[D _]]]]]]]]; [|discriminate].
      destruct (Sub _ _ _ _ E) as [S1 S2].
      exists before, k, v, after. split; [assumption|].
      split; [now apply passes_table|now apply invalid_unknown].
    + intros [before [k [v [after [E [F D]]]]]].
      destruct (Sub _ _ _ _ E) as [S1 S2].
      apply getWhereParams_throw, forEach_throw.
      exists before, k, v, after. split; [assumption|].
      split; [now apply passes_table|]. left. split; [reflexivity|].
      now apply invalid_unknown.
  - split.
    + intros H. apply getWhereParams_throw, forEach_throw in H.
      destruct H as [before [k [v [after [E [F [[D _]|[_ D]]]]]]]]; [discriminate|].
      destruct (Sub _ _ _ _ E) as [S1 S2].
      exists before, k, v, after. split; [assumption|].
      split; [now apply passes_table|assumption].
    + intros [before [k [v [after [E [F D]]]]]].
      destruct (Sub _ _ _ _ E) as [S1 S2].
      apply getWhereParams_throw, forEach_throw.
      exists before, k, v, after. split; [assumption|].
      split; [now apply passes_table|]. now right.
  - intros e H. apply getWhereParams_throw, forEach_throw in H.
    destruct H as [_ [_ [_ [_ [_ [_ [[D _]|[D _]]]]]]]]; auto.
  - intros H. apply (passes_table entries I) in H.
    destruct (getWhereParams entries paramsOffset) as [out|e] eqn:E; [eauto|].
    apply getWhereParams_throw, forEach_throw in E.
    destruct E as [before [k [v [after [E [_ D]]]]]]. subst entries.
    apply Forall_app in H as [_ H]. inversion H as [|? ? [P1 P2] _]; subst.
    simpl in *. destruct D as [[_ D]|[_ D]]; tauto.
  - intros k H. split.
    + intros [token [Ht _]].
      assert (X : includes ":" k = true) by (apply operatorToken_includes; eauto).
      congruence.
    + unfold resolve. now rewrite H.
Qed.

Lemma getWhereParams_failure_modes_witness :
  getWhereParams [("firstName", VStr "Jo"); ("age:bogus", VNum 1); ("x:in", VNum 2)] None
  = Throw InvalidOperator.
Proof.
  apply (proj1 (getWhereParams_failure_modes
                  [("firstName", VStr "Jo"); ("age:bogus", VNum 1); ("x:in", VNum 2)]
                  None ltac:(repeat constructor))).
  exists [("firstName", VStr "Jo")], "age:bogus", (VNum 1), [("x:in", VNum 2)].
  split; [reflexivity|]. split.
  - repeat constructor; simpl.
    + intros [token [Ht _]]. discriminate.
    + intros [[f [op [R I]]] _]. vm_compute in R. inversion R. subst. discriminate.
  - exists "bogus". split; [reflexivity|]. simpl.
    intros H. repeat destruct H as [H|H]; try discriminate H. exact H.
Defined.

(** C7 as stated fails two ways: a value of [IN] that is not a string makes
    the builder fail with a TypeError, a second way to fail; and a key with
    two colons is accepted although what follows its first colon is no entry
    of the table. *)
Lemma only_invalid_operator_fails_refuted :
  (getWhereParams [("x:in", VNum 1)] None = Throw TypeError
   /\ TypeError <> InvalidOperator)
  /\ (afterFirstColon "x:eq:y" = Some "eq:y"
      /\ ~ In "eq:y" (map fst COMPARISON_OPERATORS_MAP)
      /\ getWhereParams [("x:eq:y", VNum 1)] None
         = Ok {| whereSegment := "x = $1"; whereParams := [VNum 1] |}).
Proof.
  assert (D : forall t : string,
             forallb (fun k => negb (String.eqb k t)) (map fst COMPARISON_OPERATORS_MAP) = true ->
             ~ In t (map fst COMPARISON_OPERATORS_MAP)).
  { intros t H X. rewrite forallb_forall in H. specialize (H t X).
    rewrite String.eqb_refl in H. discriminate. }
  repeat split; try reflexivity; try discriminate; try (apply D; reflexivity).
Qed.

(** ** Reading placeholders out of a text *)

Lemma append_assoc (a b c : string) : (a +++ b) +++ c = a +++ b +++ c.
Proof. induction a as [|x a IH]; simpl; [reflexivity|now rewrite IH]. Qed.

Lemma append_nil_r (a : string) : a +++ EmptyString = a.
Proof. induction a as [|x a IH]; simpl; [reflexivity|now rewrite IH]. Qed.

Lemma includes_append (c : ascii) (a b : string) :
  includes c (a +++ b) = includes c a || includes c b.
Proof.
  induction a as [|x a IH]; simpl; [reflexivity|].
  now rewrite IH, orb_assoc.
Qed.

Lemma dollarFree_append (a b : string) :
  dollarFree (a +++ b) = dollarFree a && dollarFree b.
Proof. unfold dollarFree. now rewrite includes_append, negb_orb. Qed.

Lemma digit_not_dollar (c : ascii) : is_digit c = true -> Ascii.eqb c "$" = false.
Proof. by_cases_on_char c. Qed.

Lemma upper_not_dollar (c : ascii) :
  is_upper c = true -> Ascii.eqb (toLowerCase c) "$" = false.
Proof. by_cases_on_char c. Qed.

Lemma allDigits_dollarFree (d : string) : allDigits d = true -> dollarFree d = true.
Proof.
  unfold dollarFree. induction d as [|c r IH]; simpl; [reflexivity|].
  intros H. apply andb_true_iff in H as [Hc Hr].
  rewrite (digit_not_dollar c Hc). simpl. auto.
Qed.

Lemma digitPrefix_allDigits (d : string) : allDigits d = true -> digitPrefix d = d.
Proof.
  induction d as [|c r IH]; simpl; [reflexivity|].
  intros H. apply andb_true_iff in H as [Hc Hr]. now rewrite Hc, (IH Hr).
Qed.

Lemma digitPrefix_append (a b : string) :
  startsNonDigit b = true -> digitPrefix (a +++ b) = digitPrefix a.
Proof.
  intros Hb. induction a as [|c r IH]; simpl.
  - destruct b as [|x b]; simpl in *; [reflexivity|].
    apply negb_true_iff in Hb. now rewrite Hb.
  - now rewrite IH.
Qed.

Lemma placeholderTokens_append (a b : string) :
  startsNonDigit b = true ->
  placeholderTokens (a +++ b) = placeholderTokens a ++ placeholderTokens b.
Proof.
  intros Hb. induction a as [|c r IH]; simpl; [reflexivity|].
  rewrite IH, (digitPrefix_append r b Hb).
  destruct (Ascii.eqb c "$"); [|reflexivity].
  destruct (digitPrefix r); reflexivity.
Qed.

Lemma placeholderTokens_dollarFree (a : string) :
  dollarFree a = true -> placeholderTokens a = [].
Proof.
  unfold dollarFree. induction a as [|c r IH]; simpl; [reflexivity|].
  intros H. apply negb_true_iff, orb_false_iff in H as [Hc Hr].
  rewrite Hc. apply IH. now rewrite Hr.
Qed.

Lemma placeholderTokens_skip (a b : string) :
  dollarFree a = true -> placeholderTokens (a +++ b) = placeholderTokens b.
Proof.
  unfold dollarFree. induction a as [|c r IH]; simpl; [reflexivity|].
  intros H. apply negb_true_iff, orb_false_iff in H as [Hc Hr].
  rewrite Hc. apply IH. now rewrite Hr.
Qed.

(** Decimal numerals. *)
Lemma string_of_uint_allDigits (u : Decimal.uint) :
  allDigits (NilEmpty.string_of_uint u) = true.
Proof. induction u; simpl; auto. Qed.

Lemma toString_allDigits (n : N) : allDigits (toString n) = true.
Proof. apply string_of_uint_allDigits. Qed.

Lemma toString_not_empty (n : N) : toString n <> EmptyString.
Proof.
  unfold toString. intros H.
  assert (X : N.to_uint n = Decimal.Nil).
  { destruct (N.to_uint n); simpl in H; try discriminate; reflexivity. }
  destruct n as [|p]; simpl in X; [discriminate|].
  exact (DecimalPos.Unsigned.to_uint_nonnil p X).
Qed.

Lemma readNumber_toString (n : N) : readNumber (toString n) = n.
Proof.
  unfold readNumber, toString.
  rewrite NilEmpty.usu. apply DecimalN.Unsigned.of_to.
Qed.

Lemma placeholderTokens_placeholder (n : N) :
  placeholderTokens (placeholder n) = [toString n].
Proof.
  unfold placeholder. simpl.
  rewrite (digitPrefix_allDigits _ (toString_allDigits n)).
  rewrite (placeholderTokens_dollarFree (toString n)).
  2:{ apply allDigits_dollarFree, toString_allDigits. }
  pose proof (toString_not_empty n) as H. destruct (toString n); [contradiction|reflexivity].
Qed.

(** ** The fragment invariant *)

Lemma camelToSnakeCaseString_dollarFree (s : string) :
  dollarFree (camelToSnakeCaseString s) = dollarFree s.
Proof.
  unfold dollarFree. f_equal.
  induction s as [|c r IH]; simpl; [reflexivity|].
  destruct (is_upper c) eqn:Hu; simpl; rewrite IH; [|reflexivity].
  rewrite (upper_not_dollar c Hu).
  assert (X : Ascii.eqb c "$" = false) by (revert Hu; by_cases_on_char c).
  now rewrite X.
Qed.

Lemma split_dollarFree (c : ascii) (s : string) :
  dollarFree s = true -> Forall (fun x => dollarFree x = true) (split c s).
Proof.
  unfold dollarFree. induction s as [|a r IH]; simpl; [now repeat constructor|].
  intros H. apply negb_true_iff, orb_false_iff in H as [Ha Hr].
  assert (IH' := IH ltac:(now rewrite Hr)).
  destruct (Ascii.eqb a c); [now constructor|].
  destruct (split c r) as [|h t]; [repeat constructor; simpl; now rewrite Ha|].
  inversion IH'; subst. constructor; [|assumption].
  simpl. rewrite Ha. assumption.
Qed.

Lemma assoc_forall (P : string -> bool) (l : list (string * string)) (k t : string) :
  forallb (fun e => P (snd e)) l = true -> assoc k l = Some t -> P t = true.
Proof.
  induction l as [|[k' v] r IH]; simpl; [discriminate|].
  intros H. apply andb_true_iff in H as [Hv Hr].
  destruct (String.eqb k' k); [intros E; inversion E; now subst|auto].
Qed.

Lemma lookupOperator_dollarFree (token : string) (op : operator) :
  lookupOperator token = Some op -> dollarFree (render op) = true.
Proof.
  unfold lookupOperator.
  destruct (assoc token COMPARISON_OPERATORS_MAP) as [text|] eqn:E.
  - intros H. inversion H. simpl.
    apply (assoc_forall dollarFree COMPARISON_OPERATORS_MAP token text); [reflexivity|exact E].
  - destruct (assoc token Object_prototype) as [r|] eqn:E'; [|discriminate].
    intros H. inversion H. simpl.
    apply (assoc_forall dollarFree Object_prototype token r); [reflexivity|exact E'].
Qed.

Lemma resolve_dollarFree (k field : string) (op : operator) :
  dollarFree k = true -> resolve k = Ok (field, op) ->
  dollarFree (camelToSnakeCaseString field +++ " " +++ render op) = true.
Proof.
  intros Hk Hr.
  rewrite !dollarFree_append, camelToSnakeCaseString_dollarFree.
  destruct (resolve_cases k) as [[_ R]|[[token [o [Ht [Hl R]]]]|[token [_ [_ R]]]]];
    rewrite R in Hr; inversion Hr; subst.
  - now rewrite Hk.
  - rewrite (lookupOperator_dollarFree token op Hl).
    pose proof (split_dollarFree ":" k Hk) as F.
    destruct (split ":" k) as [|h t]; [reflexivity|].
    inversion F; subst. simpl. now rewrite H1.
Qed.

Lemma join_snoc (sep : string) (lines : list string) (x : string) :
  join sep (lines ++ [x])
  = match lines with
    | [] => x
    | _ => join sep lines +++ sep +++ x
    end.
Proof.
  induction lines as [|a r IH]; [reflexivity|].
  change ((a :: r) ++ [x]) with (a :: (r ++ [x])).
  destruct r as [|b r']; [reflexivity|].
  change (join sep (a :: (b :: r') ++ [x]))
    with (a +++ sep +++ join sep ((b :: r') ++ [x])).
  rewrite IH.
  change (join sep (a :: b :: r')) with (a +++ sep +++ join sep (b :: r')).
  now rewrite !append_assoc.
Qed.

Lemma numbersFrom_snoc (count : nat) :
  forall first,
    numbersFrom first (S count)
    = numbersFrom first count ++ [(first + N.of_nat count + 1)%N].
Proof.
  induction count as [|c IH]; intros first.
  - simpl. now rewrite N.add_0_r.
  - change (numbersFrom first (S (S c)))
      with ((first + 1)%N :: numbersFrom (N.succ first) (S c)).
    rewrite IH. cbn [numbersFrom]. rewrite <- app_comm_cons. do 3 f_equal. lia.
Qed.

Lemma numbersFrom_length (count : nat) :
  forall first, List.length (numbersFrom first count) = count.
Proof. induction count as [|c IH]; intros first; simpl; auto. Qed.

(** The placeholders of the joined lines after one more line. *)
Lemma placeholderTokens_join_snoc (lines : list string) (x : string) :
  placeholderTokens (join AND (lines ++ [x]))
  = placeholderTokens (join AND lines) ++ placeholderTokens x.
Proof.
  rewrite join_snoc. destruct lines as [|a r]; [reflexivity|].
  rewrite placeholderTokens_append by reflexivity.
  now rewrite (placeholderTokens_skip AND x).
Qed.

Lemma callback_extends_invariant p lines params k v field op :
  dollarFree k = true ->
  resolve k = Ok (field, op) ->
  isInOperator op = false ->
  (len params + 1 + p < safeLimit)%N ->
  linesMatchParams p lines params ->
  exists l q,
    callback p lines params k v = Ok (l, q)
    /\ linesMatchParams p l q /\ List.length q <= S (List.length params).
Proof.
  intros Hk Hr Hni B Inv.
  pose proof (resolve_dollarFree k field op Hk Hr) as Hfree.
  unfold linesMatchParams in *.
  destruct (isNullOperator op) eqn:Hn.
  - rewrite (callback_null p lines params k v field op Hr Hn).
    eexists; eexists; split; [reflexivity|]. split; [|lia].
    rewrite placeholderTokens_join_snoc, Inv.
    rewrite (placeholderTokens_dollarFree _ Hfree). apply app_nil_r.
  - rewrite (callback_scalar p lines params k v field op Hr);
      [|unfold isScalarOperator; now rewrite Hn, Hni|assumption].
    eexists; eexists; split; [reflexivity|].
    split; [|rewrite length_app; simpl; lia].
    rewrite placeholderTokens_join_snoc, Inv.
    rewrite length_app. simpl List.length. rewrite Nat.add_1_r, numbersFrom_snoc, map_app.
    f_equal.
    rewrite <- !append_assoc.
    rewrite placeholderTokens_skip.
    2:{ rewrite dollarFree_append, append_assoc, Hfree. reflexivity. }
    rewrite placeholderTokens_placeholder. unfold len. cbn [map].
    do 2 f_equal. lia.
Qed.

Lemma callback_keeps_invariant p lines params k v l q :
  dollarFree k = true ->
  resolvesToIn k = false ->
  (len params + 1 + p < safeLimit)%N ->
  linesMatchParams p lines params ->
  callback p lines params k v = Ok (l, q) ->
  linesMatchParams p l q /\ List.length q <= S (List.length params).
Proof.
  intros Hk Hni B Inv C.
  unfold resolvesToIn in Hni.
  destruct (resolve k) as [[field op]|e] eqn:Hr;
    [|unfold callback in C; rewrite Hr in C; discriminate].
  destruct (callback_extends_invariant p lines params k v field op Hk Hr Hni B Inv)
    as [l' [q' [C' [Inv' L']]]].
  rewrite C in C'. injection C' as El Eq. subst l' q'. auto.
Qed.

Lemma forEach_keeps_invariant p es :
  Forall (fun e => dollarFree (fst e) = true /\ resolvesToIn (fst e) = false) es ->
  forall lines params l q,
    (p + len params + len es < safeLimit)%N ->
    linesMatchParams p lines params ->
    Where.forEach p es lines params = Ok (l, q) ->
    linesMatchParams p l q.
Proof.
  induction 1 as [|[k v] r [Hk Hr] _ IH]; intros lines params l q B Inv; simpl.
  - intros E. injection E as <- <-. exact Inv.
  - destruct (callback p lines params k v) as [[l1 q1]|e] eqn:C; [|discriminate].
    unfold len in B. simpl List.length in B.
    destruct (callback_keeps_invariant p lines params k v l1 q1 Hk Hr) as [Inv1 L1];
      [unfold len; lia|assumption|assumption|].
    apply IH; [unfold len; lia|assumption].
Qed.

Lemma linesMatchParams_fragmentInvariant p lines params :
  linesMatchParams p lines params ->
  fragmentInvariant p {| whereSegment := join AND lines; whereParams := params |}.
Proof.
  unfold linesMatchParams, fragmentInvariant, placeholders. simpl. intros H.
  rewrite H, map_map.
  rewrite (map_ext _ (fun n => n) readNumber_toString), map_id.
  split; [apply numbersFrom_length|reflexivity].
Qed.

(** C2 (as amended).  When no key contains a [$], no entry resolves to
    [IN] or [NOT IN] and the offset plus the number of entries is below 2^53,
    whatever [getWhereParams] returns satisfies the invariant: the number of
    placeholders in the segment is the number of parameters, and the
    placeholders are numbered [paramsOffset + 1], [paramsOffset + 2], ... in
    order. *)
Theorem fragment_invariant_without_in (entries : object) (paramsOffset : option N)
    (out : GetParamsForWhereOutput) :
  Forall (fun e => dollarFree (fst e) = true /\ resolvesToIn (fst e) = false) entries ->
  (offsetOf paramsOffset + len entries < safeLimit)%N ->
  getWhereParams entries paramsOffset = Ok out ->
  fragmentInvariant (offsetOf paramsOffset) out.
Proof.
  intros H B E. unfold getWhereParams in E. fold (offsetOf paramsOffset) in E.
  destruct (Where.forEach (offsetOf paramsOffset) entries [] []) as [[lines params]|e]
    eqn:F; [|discriminate].
  inversion E.
  apply linesMatchParams_fragmentInvariant.
  apply (forEach_keeps_invariant (offsetOf paramsOffset) entries H [] [] lines params);
    [unfold len at 1; simpl; lia|reflexivity|assumption].
Qed.

Lemma fragment_invariant_without_in_witness :
  fragmentInvariant 2
    {| whereSegment := "age >= $3" +++ AND +++ "deleted_at IS NULL" +++ AND +++ "age < $4";
       whereParams := [VNum 18; VNum 65] |}.
Proof.
  apply (fragment_invariant_without_in
           [("age:gte", VNum 18); ("deletedAt:isNull", VNull); ("age:lt", VNum 65)]
           (Some 2%N)).
  - repeat constructor.
  - reflexivity.
  - reflexivity.
Defined.

(** C2 as stated fails: an [IN] entry with three elements gives three
    placeholders for one parameter, the entry after an [IN] entry reuses a
    number, a [$] in a key is read as a placeholder, and at offset 2^53 the
    numbers printed are not contiguous. *)
Lemma fragment_invariant_fails :
  (exists out,
      getWhereParams [("status:in", VStr "a,b,c")] None = Ok out
      /\ placeholders (whereSegment out) = [1; 2; 3]%N
      /\ List.length (whereParams out) = 1
      /\ ~ fragmentInvariant 0 out)
  /\ (exists out,
         getWhereParams [("s:in", VStr "a,b"); ("x", VNum 1)] None = Ok out
         /\ placeholders (whereSegment out) = [1; 2; 2]%N
         /\ ~ fragmentInvariant 0 out)
  /\ (exists out,
         getWhereParams [("$9", VNum 1)] None = Ok out
         /\ placeholders (whereSegment out) = [9; 1]%N
         /\ ~ fragmentInvariant 0 out)
  /\ (exists out,
         getWhereParams [("a", VNum 1); ("b", VNum 2)] (Some (2 ^ 53)%N) = Ok out
         /\ placeholders (whereSegment out)
            = [9007199254740992; 9007199254740994]%N
         /\ ~ fragmentInvariant (2 ^ 53) out).
Proof.
  split; [|split; [|split]]; eexists; (split; [vm_compute; reflexivity|]);
    repeat split; try (vm_compute; reflexivity);
    intros [H H']; vm_compute in H, H'; discriminate.
Qed.

(** ** Key conversion of objects *)

Section KeyConversionFacts.

Variable conv : string -> string.

Lemma obj_get_set_same (k : string) (v : value) (o : object) :
  obj_get k (obj_set k v o) = Some v.
Proof.
  induction o as [|[k' v'] r IH]; simpl.
  - now rewrite String.eqb_refl.
  - destruct (String.eqb k' k) eqn:E; simpl; rewrite E; auto.
Qed.

Lemma obj_get_set_other (k k' : string) (v : value) (o : object) :
  k' <> k -> obj_get k (obj_set k' v o) = obj_get k o.
Proof.
  intros N. apply String.eqb_neq in N.
  induction o as [|[k0 v0] r IH]; simpl.
  - now rewrite N.
  - destruct (String.eqb k0 k') eqn:E; simpl.
    + apply String.eqb_eq in E. subst k0. now rewrite N.
    + now rewrite IH.
Qed.

Lemma obj_get_assign_same (k : string) (v : value) (r : bool) (o : store) :
  k <> protoKey -> obj_get k (fst (assign k v r o)) = Some v.
Proof.
  intros N. unfold assign. apply String.eqb_neq in N. unfold protoKey in N.
  rewrite N. simpl. apply obj_get_set_same.
Qed.

Lemma obj_get_assign_other (k k' : string) (v : value) (r : bool) (o : store) :
  k' <> k -> obj_get k (fst (assign k' v r o)) = obj_get k (fst o).
Proof.
  intros N. unfold assign.
  destruct (String.eqb k' "__proto__" && snd o);
    [destruct v; reflexivity|now apply obj_get_set_other].
Qed.

(** The loops of [convertObject] are [forEachEntry] and [forEachElement]. *)
Lemma convertObject_VObj (es : list (string * value)) :
  convertObject conv (VObj es) = forEachEntry conv es fresh.
Proof.
  simpl. generalize fresh.
  induction es as [|[k v] r IH]; intros converted; [reflexivity|].
  simpl. unfold convertEntry.
  destruct (recursesInto v); [destruct (convertObject conv v)|]; auto.
Qed.

Lemma convertObject_VArr (xs : list value) :
  convertObject conv (VArr xs) = forEachElement conv 0 xs fresh.
Proof.
  simpl. generalize fresh. generalize 0%N.
  induction xs as [|v r IH]; intros i converted; [reflexivity|].
  simpl. unfold convertEntry.
  destruct (recursesInto v); [destruct (convertObject conv v)|]; auto.
Qed.

Lemma convertKeys_VObj (es : list (string * value)) :
  convertKeys conv (VObj es)
  = match forEachEntry conv es fresh with
    | Ok converted => Ok (fst converted)
    | Throw e => Throw e
    end.
Proof. unfold convertKeys. now rewrite convertObject_VObj. Qed.

(** [convertEntry] stores what [convertValue] gives. *)
Lemma convertValue_entry (v : value) :
  convertValue conv v
  = match convertEntry conv v with
    | Ok w => Ok (fst w)
    | Throw e => Throw e
    end.
Proof.
  unfold convertValue, convertEntry, convertKeys.
  destruct (recursesInto v); [destruct (convertObject conv v)|]; reflexivity.
Qed.

Lemma convertValue_entry_inv (v w : value) :
  convertValue conv v = Ok w -> exists r, convertEntry conv v = Ok (w, r).
Proof.
  rewrite convertValue_entry. destruct (convertEntry conv v) as [[w' r]|e]; [|discriminate].
  intros E. inversion E. now exists r.
Qed.

Lemma forEachEntry_app (es1 es2 : list (string * value)) :
  forall converted,
    forEachEntry conv (es1 ++ es2) converted
    = match forEachEntry conv es1 converted with
      | Ok c => forEachEntry conv es2 c
      | Throw e => Throw e
      end.
Proof.
  induction es1 as [|[k v] r IH]; intros converted; simpl; [reflexivity|].
  destruct (convertEntry conv v); auto.
Qed.

(** No value makes the conversion of an entry fail: [null] and [undefined]
    are not recursed into. *)
Lemma convertEntry_total (v : value) : exists w, convertEntry conv v = Ok w.
Proof.
  induction v as [ | | b | n | s | ms | xs IH | es IH ] using value_induction;
    try (eexists; reflexivity).
  - unfold convertEntry. simpl recursesInto. cbv iota. rewrite convertObject_VArr.
    generalize fresh. generalize 0%N.
    induction IH as [|v r [w Hw] _ IHr]; intros i converted; simpl.
    + eauto.
    + rewrite Hw.
      destruct (IHr (N.succ i) (assign (conv (toString i)) (fst w) (snd w) converted))
        as [w' Hw'].
      destruct (forEachElement conv (N.succ i) r _); [eauto|discriminate].
  - unfold convertEntry. simpl recursesInto. cbv iota. rewrite convertObject_VObj.
    generalize fresh.
    induction IH as [|[k v] r [w Hw] _ IHr]; intros converted; simpl.
    + eauto.
    + simpl in Hw. rewrite Hw.
      destruct (IHr (assign (conv k) (fst w) (snd w) converted)) as [w' Hw'].
      destruct (forEachEntry conv r _); [eauto|discriminate].
Qed.

Lemma convertValue_total (v : value) : exists w, convertValue conv v = Ok w.
Proof.
  rewrite convertValue_entry. destruct (convertEntry_total v) as [w E].
  rewrite E. eauto.
Qed.

Lemma forEachEntry_total (es : list (string * value)) :
  forall converted, exists c, forEachEntry conv es converted = Ok c.
Proof.
  induction es as [|[k v] r IH]; intros converted; simpl; [eauto|].
  destruct (convertEntry_total v) as [w Hw]. rewrite Hw. apply IH.
Qed.

Lemma convertKeys_VObj_total (es : list (string * value)) :
  exists converted, convertKeys conv (VObj es) = Ok converted.
Proof.
  rewrite convertKeys_VObj. destruct (forEachEntry_total es fresh) as [c E].
  rewrite E. eauto.
Qed.

(** Entries whose converted key is not [ck] leave the property [ck] alone. *)
Lemma forEachEntry_other_keys (ck : string) (es : list (string * value)) :
  (forall e, In e es -> conv (fst e) <> ck) ->
  forall converted c,
    forEachEntry conv es converted = Ok c ->
    obj_get ck (fst c) = obj_get ck (fst converted).
Proof.
  induction es as [|[k v] r IH]; intros H converted c; simpl.
  - intros E. now inversion E.
  - destruct (convertEntry conv v) as [w|e]; [|discriminate].
    intros E. rewrite (IH (fun e He => H e (or_intror He)) _ _ E).
    apply obj_get_assign_other. apply (H (k, v)). now left.
Qed.

Lemma null_entry_copied (before after : list (string * value)) (k : string) :
  conv k <> protoKey ->
  (forall e, In e after -> conv (fst e) <> conv k) ->
  exists converted,
    convertKeys conv (VObj (before ++ (k, VNull) :: after)) = Ok converted
    /\ obj_get (conv k) converted = Some VNull.
Proof.
  intros P H. rewrite convertKeys_VObj, forEachEntry_app.
  destruct (forEachEntry_total before fresh) as [c1 E1]. rewrite E1.
  change (forEachEntry conv ((k, VNull) :: after) c1)
    with (forEachEntry conv after (assign (conv k) VNull true c1)).
  destruct (forEachEntry_total after (assign (conv k) VNull true c1)) as [c2 E2].
  rewrite E2. exists (fst c2). split; [reflexivity|].
  rewrite (forEachEntry_other_keys (conv k) after H _ _ E2).
  now apply obj_get_assign_same.
Qed.

End KeyConversionFacts.

(** C9 (as amended).  In [camelToSnakeCaseKeys] and [snakeToCamelCaseKeys]
    an entry whose value is [null] is not recursed into: the conversion of
    the entry assigns [null], and the result has [null] under the converted
    key when that key is not [__proto__] (which [snakeToCamelCaseString]
    never gives) and no later entry is converted to the same key; both
    functions return on every object, whatever [null] values it contains. *)
Theorem null_values_are_leaves :
  (convertValue camelToSnakeCaseString VNull = Ok VNull
   /\ convertValue snakeToCamelCaseString VNull = Ok VNull)
  /\ (forall (before after : list (string * value)) (k : string),
         camelToSnakeCaseString k <> protoKey ->
         (forall e, In e after ->
                    camelToSnakeCaseString (fst e) <> camelToSnakeCaseString k) ->
         exists converted,
           camelToSnakeCaseKeys (VObj (before ++ (k, VNull) :: after)) = Ok converted
           /\ obj_get (camelToSnakeCaseString k) converted = Some VNull)
  /\ (forall (before after : list (string * value)) (k : string),
         (forall e, In e after ->
                    snakeToCamelCaseString (fst e) <> snakeToCamelCaseString k) ->
         exists converted,
           snakeToCamelCaseKeys (VObj (before ++ (k, VNull) :: after)) = Ok converted
           /\ obj_get (snakeToCamelCaseString k) converted = Some VNull)
  /\ (forall es : list (string * value),
         (exists converted, camelToSnakeCaseKeys (VObj es) = Ok converted)
         /\ (exists converted, snakeToCamelCaseKeys (VObj es) = Ok converted)).
Proof.
  split; [split; reflexivity|].
  split; [intros before after k P H; now apply null_entry_copied|].
  split; [intros before after k H; apply null_entry_copied;
          [apply snakeToCamelCaseString_not_proto|assumption]|].
  intros es. unfold camelToSnakeCaseKeys, snakeToCamelCaseKeys.
  split; apply convertKeys_VObj_total.
Qed.

Lemma null_values_are_leaves_witness :
  exists converted,
    camelToSnakeCaseKeys
      (VObj [("firstName", VStr "Jo"); ("deletedAt", VNull);
             ("homeAddress", VObj [("zipCode", VNull)])])
    = Ok converted
    /\ obj_get "deleted_at" converted = Some VNull.
Proof.
  apply (proj1 (proj2 null_values_are_leaves)
           [("firstName", VStr "Jo")]
           [("homeAddress", VObj [("zipCode", VNull)])] "deletedAt").
  - vm_compute. discriminate.
  - intros e [E|[]]. subst e. vm_compute. discriminate.
Defined.

(** C9 as stated fails two ways: under the converted key [__proto__] no
    property is created, the assignment going to the inherited setter, and a
    later entry converted to the same key overwrites the [null]. *)
Lemma null_entry_not_copied :
  (camelToSnakeCaseString "_Proto__" = "__proto__"
   /\ camelToSnakeCaseKeys (VObj [("_Proto__", VNull)]) = Ok []
   /\ camelToSnakeCaseKeys (VObj [("__proto__", VNull)]) = Ok [])
  /\ (camelToSnakeCaseString "aB" = "a_b"
      /\ camelToSnakeCaseKeys (VObj [("aB", VNull); ("a_b", VNum 1)])
         = Ok [("a_b", VNum 1)]).
Proof. repeat split. Qed.

(** An array is recursed into like an object: what is stored for it is a
    plain object keyed by the indices. *)
Lemma convertValue_array (conv : string -> string) (xs : list value) :
  exists o, convertValue conv (VArr xs) = Ok (VObj o).
Proof.
  destruct (convertValue_total conv (VArr xs)) as [w H].
  unfold convertValue in *. simpl recursesInto in *. cbv iota in *.
  destruct (convertKeys conv (VArr xs)) as [o|e]; [|discriminate].
  now exists o.
Qed.

(** C4 (the code departs from it).  An array-valued entry is not copied: the
    guard of the recursion lets arrays through, so the array comes out as a
    plain object keyed by ["0"], ["1"], ... and the keys inside its elements
    are converted. *)
Theorem arrays_are_recursed_into :
  camelToSnakeCaseKeys
    (VObj [("tagList", VArr [VStr "a"; VObj [("firstName", VNum 1)]])])
  = Ok [("tag_list", VObj [("0", VStr "a"); ("1", VObj [("first_name", VNum 1)])])]
  /\ snakeToCamelCaseKeys
       (VObj [("tag_list", VArr [VStr "a"; VObj [("first_name", VNum 1)]])])
     = Ok [("tagList", VObj [("0", VStr "a"); ("1", VObj [("firstName", VNum 1)])])]
  /\ (forall xs : list value,
         (exists o, convertValue camelToSnakeCaseString (VArr xs) = Ok (VObj o))
         /\ (exists o, convertValue snakeToCamelCaseString (VArr xs) = Ok (VObj o))).
Proof.
  split; [reflexivity|]. split; [reflexivity|].
  intros xs. split; apply convertValue_array.
Qed.

(** ** Array normalizer *)

Lemma ltb_asym (a b : string) : String.ltb a b = true -> String.ltb b a = false.
Proof.
  unfold String.ltb. rewrite (String.compare_antisym a b).
  destruct (String.compare b a); simpl; congruence.
Qed.

Lemma insert_permutation (x : number) (l : list number) :
  Permutation (x :: l) (ArrayNormalizer.insert x l).
Proof.
  induction l as [|y r IH]; simpl; [reflexivity|].
  destruct (String.ltb (numberToString y) (numberToString x)); [|reflexivity].
  rewrite perm_swap. now constructor.
Qed.

Lemma insert_sorted (x : number) (l : list number) :
  Sorted textOrder l -> Sorted textOrder (ArrayNormalizer.insert x l).
Proof.
  induction 1 as [|y r Hs IH Hd]; simpl.
  - repeat constructor.
  - destruct (String.ltb (numberToString y) (numberToString x)) eqn:E.
    + constructor; [assumption|].
      destruct r as [|z r']; simpl.
      * constructor. now apply ltb_asym.
      * destruct (String.ltb (numberToString z) (numberToString x)).
        -- inversion Hd; subst. now constructor.
        -- constructor. now apply ltb_asym.
    + constructor; [now constructor|now constructor].
Qed.

(** What [sort()] returns: the same numbers, in the order of their texts. *)
Lemma sort_spec (xs : list number) :
  Permutation xs (sort xs) /\ Sorted textOrder (sort xs).
Proof.
  induction xs as [|x r [IHp IHs]]; simpl; [split; constructor|].
  split.
  - rewrite <- insert_permutation. now constructor.
  - now apply insert_sorted.
Qed.

(** C1 (the code departs from it).  [sort()] is called without a comparator,
    so the parsed keys are ordered as texts: [10] comes before [2], and
    [{"10": "x", "2": "y"}] gives [["x", "y"]] whichever way the keys are
    enumerated. *)
Theorem arrayObjectToArray_orders_keys_as_text :
  arrayObjectToArray [("2", VStr "y"); ("10", VStr "x")] = [VStr "x"; VStr "y"]
  /\ arrayObjectToArray [("10", VStr "x"); ("2", VStr "y")] = [VStr "x"; VStr "y"]
  /\ sort [Int 2; Int 10] = [Int 10; Int 2]
  /\ fold_right insertNumeric [] [10%Z; 2%Z] = [2%Z; 10%Z].
Proof. repeat split. Qed.

(** * Further properties *)

(** ** Case converter: shape of the results *)

Lemma upper_lower_not_upper (c : ascii) :
  is_upper c = true -> is_upper (toLowerCase c) = false.
Proof. by_cases_on_char c. Qed.

Lemma camelToSnakeCaseString_length (s : string) :
  String.length (camelToSnakeCaseString s) = String.length s + count_upper s.
Proof.
  induction s as [|c r IH]; simpl; [reflexivity|].
  destruct (is_upper c); simpl; rewrite IH; lia.
Qed.

Lemma count_upper_zero (s : string) : count_upper s = 0 <-> no_upper s = true.
Proof.
  induction s as [|c r IH]; simpl; [tauto|].
  destruct (is_upper c); simpl; [split; [lia|discriminate]|exact IH].
Qed.

(** X1.  [camelToSnakeCaseString] adds one character per uppercase letter,
    and it returns its argument exactly when the argument has no uppercase
    letter. *)
Theorem camelToSnakeCaseString_grows_by_uppercase (s : string) :
  String.length (camelToSnakeCaseString s) = String.length s + count_upper s
  /\ (camelToSnakeCaseString s = s <-> no_upper s = true).
Proof.
  split; [apply camelToSnakeCaseString_length|]. split.
  - intros E. apply count_upper_zero.
    pose proof (camelToSnakeCaseString_length s) as L. rewrite E in L. lia.
  - apply camelToSnakeCaseString_no_upper.
Qed.

(** X2.  Converting to snake_case and back to camelCase gives the string
    again whenever no underscore of it is directly followed by a lowercase
    letter (as in every camelCase identifier). *)
Theorem camel_snake_camel_roundtrip (s : string) :
  no_snake_pair s = true ->
  snakeToCamelCaseString (camelToSnakeCaseString s) = s.
Proof. apply camel_snake_camel. Qed.

Lemma camel_snake_camel_roundtrip_witness :
  snakeToCamelCaseString (camelToSnakeCaseString "homeAddress2_Line") = "homeAddress2_Line".
Proof. apply (camel_snake_camel_roundtrip "homeAddress2_Line"). reflexivity. Defined.

Lemma camelToSnakeCaseString_result_no_upper (s : string) :
  no_upper (camelToSnakeCaseString s) = true.
Proof.
  induction s as [|c r IH]; simpl; [reflexivity|].
  destruct (is_upper c) eqn:Hu; simpl.
  - now rewrite (upper_lower_not_upper c Hu), IH.
  - now rewrite Hu, IH.
Qed.

(** X3.  The result of [camelToSnakeCaseString] has no uppercase ASCII
    letter, so converting a second time changes nothing. *)
Theorem camelToSnakeCaseString_idempotent (s : string) :
  no_upper (camelToSnakeCaseString s) = true
  /\ camelToSnakeCaseString (camelToSnakeCaseString s) = camelToSnakeCaseString s.
Proof.
  split; [apply camelToSnakeCaseString_result_no_upper|].
  apply camelToSnakeCaseString_no_upper, camelToSnakeCaseString_result_no_upper.
Qed.

Lemma snakeToCamelCaseString_no_pair (s : string) :
  no_snake_pair s = true -> snakeToCamelCaseString s = s.
Proof.
  induction s as [|c r IH]; [reflexivity|].
  intros H. simpl in H. apply andb_true_iff in H as [Hc Hr].
  rewrite snakeToCamelCaseString_cons; [now rewrite (IH Hr)|].
  intros d t' E. subst r. now apply negb_true_iff in Hc.
Qed.

(** X4.  In the result of [snakeToCamelCaseString] no underscore is directly
    followed by a lowercase letter, so converting a second time changes
    nothing. *)
Theorem snakeToCamelCaseString_idempotent (s : string) :
  no_snake_pair (snakeToCamelCaseString s) = true
  /\ snakeToCamelCaseString (snakeToCamelCaseString s) = snakeToCamelCaseString s.
Proof.
  split; [apply snakeToCamelCaseString_result_pair|].
  apply snakeToCamelCaseString_no_pair, snakeToCamelCaseString_result_pair.
Qed.

Lemma camelToSnakeCaseString_append (a b : string) :
  camelToSnakeCaseString (a +++ b)
  = camelToSnakeCaseString a +++ camelToSnakeCaseString b.
Proof.
  induction a as [|c r IH]; simpl; [reflexivity|].
  destruct (is_upper c); simpl; now rewrite IH.
Qed.

(** X5.  [camelToSnakeCaseString] works character by character: the
    conversion of a concatenation is the concatenation of the conversions,
    while [snakeToCamelCaseString] does not have this property. *)
Theorem camelToSnakeCaseString_concatenation :
  (forall a b : string,
      camelToSnakeCaseString (a +++ b)
      = camelToSnakeCaseString a +++ camelToSnakeCaseString b)
  /\ snakeToCamelCaseString ("a_" +++ "b")
     <> snakeToCamelCaseString "a_" +++ snakeToCamelCaseString "b".
Proof. split; [apply camelToSnakeCaseString_append|vm_compute; discriminate]. Qed.

(** X6.  Distinct camelCase names stay distinct in snake_case, and distinct
    snake_case names stay distinct in camelCase: each converter is injective
    on the strings the other one restores. *)
Theorem converters_injective :
  (forall a b : string,
      no_snake_pair a = true -> no_snake_pair b = true ->
      camelToSnakeCaseString a = camelToSnakeCaseString b -> a = b)
  /\ (forall a b : string,
         no_upper a = true -> no_upper b = true ->
         snakeToCamelCaseString a = snakeToCamelCaseString b -> a = b).
Proof.
  split; intros a b Ha Hb E.
  - rewrite <- (camel_snake_camel a Ha), <- (camel_snake_camel b Hb). now rewrite E.
  - rewrite <- (snake_camel_snake a Ha), <- (snake_camel_snake b Hb). now rewrite E.
Qed.

Lemma converters_injective_witness : "firstName" = "firstName".
Proof. apply (proj1 converters_injective "firstName" "firstName"); reflexivity. Defined.

(** ** Key conversion of objects: failures, keys and values *)

Lemma assign_keys (k : string) (v : value) (r : bool) (o : store) (key : string) :
  In key (map fst (fst (assign k v r o))) -> key = k \/ In key (map fst (fst o)).
Proof.
  unfold assign. destruct (String.eqb k "__proto__" && snd o).
  - destruct v; simpl; auto.
  - simpl. rewrite obj_set_keys. now intros [X|X]; [left|right].
Qed.

Lemma assign_keeps_keys (k : string) (v : value) (r : bool) (o : store) (key : string) :
  In key (map fst (fst o)) -> In key (map fst (fst (assign k v r o))).
Proof.
  unfold assign. destruct (String.eqb k "__proto__" && snd o).
  - destruct v; simpl; auto.
  - simpl. rewrite obj_set_keys. now right.
Qed.

Lemma assign_adds_key (k : string) (v : value) (r : bool) (o : store) :
  k <> protoKey -> In k (map fst (fst (assign k v r o))).
Proof.
  intros P. unfold assign. apply String.eqb_neq in P. unfold protoKey in P.
  rewrite P. simpl. rewrite obj_set_keys. now left.
Qed.

Lemma assign_NoDup (k : string) (v : value) (r : bool) (o : store) :
  NoDup (map fst (fst o)) -> NoDup (map fst (fst (assign k v r o))).
Proof.
  unfold assign. destruct (String.eqb k "__proto__" && snd o).
  - destruct v; simpl; auto.
  - simpl. apply obj_set_NoDup.
Qed.

Lemma assign_fresh (k : string) (v : value) (r : bool) (o : store) :
  k <> protoKey -> ~ In k (map fst (fst o)) ->
  assign k v r o = (fst o ++ [(k, v)], snd o).
Proof.
  intros P F. unfold assign. apply String.eqb_neq in P. unfold protoKey in P.
  rewrite P. simpl. now rewrite obj_set_fresh.
Qed.

Section KeyConversionMore.

Variable conv : string -> string.

Lemma convertKeys_recursed_total (v : value) :
  recursesInto v = true -> exists o, convertKeys conv v = Ok o.
Proof.
  intros H. destruct (convertValue_total conv v) as [w E].
  unfold convertValue in E. rewrite H in E.
  destruct (convertKeys conv v) as [o|e]; [eauto|discriminate].
Qed.

Lemma convertKeys_throw (v : value) (e : error) :
  convertKeys conv v = Throw e <-> (v = VNull \/ v = VUndefined) /\ e = TypeError.
Proof.
  destruct v as [ | | b | n | s | ms | xs | es ];
    try (simpl; split; [discriminate|intros [[H|H] _]; discriminate]).
  - simpl. split; [intros H; inversion H; auto|intros [_ H]; now subst].
  - simpl. split; [intros H; inversion H; auto|intros [_ H]; now subst].
  - destruct (convertKeys_recursed_total (VArr xs) eq_refl) as [o E]. rewrite E.
    split; [discriminate|intros [[H|H] _]; discriminate].
  - destruct (convertKeys_recursed_total (VObj es) eq_refl) as [o E]. rewrite E.
    split; [discriminate|intros [[H|H] _]; discriminate].
Qed.

Lemma forEachEntry_keys (es : list (string * value)) :
  forall converted c,
    forEachEntry conv es converted = Ok c ->
    (NoDup (map fst (fst converted)) -> NoDup (map fst (fst c)))
    /\ (forall key, In key (map fst (fst c)) ->
                    In key (map conv (map fst es)) \/ In key (map fst (fst converted)))
    /\ (forall key, (In key (map conv (map fst es)) /\ key <> protoKey)
                    \/ In key (map fst (fst converted)) ->
                    In key (map fst (fst c))).
Proof.
  induction es as [|[k v] r IH]; intros converted c; simpl.
  - intros E. inversion E. subst. split; [auto|]. split; intros key; clear; tauto.
  - destruct (convertEntry conv v) as [w|e]; [|discriminate].
    intros E. destruct (IH _ _ E) as [Hn [Hk Hk']]. split; [|split].
    + intros H. now apply Hn, assign_NoDup.
    + intros key X. destruct (Hk key X) as [Y|Y]; [auto|].
      destruct (assign_keys _ _ _ _ _ Y) as [Z|Z]; auto.
    + intros key [[[X|X] Y]|X]; apply Hk'.
      * right. subst key. now apply assign_adds_key.
      * left. now split.
      * right. now apply assign_keeps_keys.
Qed.

(** With converted keys that are new, pairwise different and not
    [__proto__], the loop appends the converted entries in order. *)
Lemma forEachEntry_fresh (es : list (string * value)) :
  forall ws converted,
    Forall2 (fun e w => convertValue conv (snd e) = Ok w) es ws ->
    NoDup (map conv (map fst es)) ->
    ~ In protoKey (map conv (map fst es)) ->
    (forall key, In key (map conv (map fst es)) -> ~ In key (map fst (fst converted))) ->
    forEachEntry conv es converted
    = Ok (fst converted ++ combine (map conv (map fst es)) ws, snd converted).
Proof.
  induction es as [|[k v] r IH]; intros ws converted F N P Fr.
  - inversion F. simpl. rewrite app_nil_r. now destruct converted.
  - inversion F as [|? w ? ws' Hw F']; subst. simpl in *.
    destruct (convertValue_entry_inv conv v w Hw) as [rw Hw']. rewrite Hw'.
    inversion N as [|? ? Hk N']; subst. simpl fst. simpl snd.
    rewrite (assign_fresh (conv k) w rw converted);
      [|intros X; apply P; left; exact X|apply Fr; now left].
    rewrite (IH ws' _ F' N').
    + simpl. now rewrite <- app_assoc.
    + intros X. apply P. now right.
    + intros key Hin. simpl. rewrite map_app, in_app_iff. simpl.
      intros [X|[X|[]]]; [exact (Fr key (or_intror Hin) X)|]. now subst.
Qed.



Lemma converted_keys (es : list (string * value)) :
  exists converted,
    convertKeys conv (VObj es) = Ok converted
    /\ NoDup (map fst converted)
    /\ (forall key, In key (map fst converted) -> In key (map conv (map fst es)))
    /\ (forall key, In key (map conv (map fst es)) -> key <> protoKey ->
                    In key (map fst converted))
    /\ (NoDup (map conv (map fst es)) ->
        ~ In protoKey (map conv (map fst es)) ->
        map fst converted = map conv (map fst es)).
Proof.
  rewrite convertKeys_VObj.
  destruct (forEachEntry_total conv es fresh) as [c E]. rewrite E. exists (fst c).
  destruct (forEachEntry_keys es fresh c E) as [Hn [Hk Hk']].
  split; [reflexivity|]. split; [apply Hn; constructor|].
  split; [intros key X; destruct (Hk key X) as [Y|[]]; exact Y|].
  split; [intros key X Y; apply Hk'; left; now split|].
  intros N P.
  assert (F : exists ws, Forall2 (fun e w => convertValue conv (snd e) = Ok w) es ws).
  { clear. induction es as [|[k v] r [ws IH]]; [exists []; constructor|].
    destruct (convertValue_total conv v) as [w Hw]. exists (w :: ws). now constructor. }
  destruct F as [ws F].
  rewrite (forEachEntry_fresh es ws fresh F N P) in E by (intros key _ []).
  inversion E. simpl.
  assert (L : List.length (map conv (map fst es)) = List.length ws).
  { rewrite !length_map. clear - F. induction F; simpl; auto. }
  clear - L. revert L. generalize (map conv (map fst es)). intros ks.
  revert ws. induction ks as [|a ks IH]; intros [|w ws] L; simpl in *;
    try discriminate; [reflexivity|]. f_equal. apply IH. lia.
Qed.

End KeyConversionMore.

(** X7.  [camelToSnakeCaseKeys] and [snakeToCamelCaseKeys] fail exactly when
    their argument itself is [null] or [undefined], and then with a
    TypeError; nothing nested in the argument makes them fail. *)
Theorem key_converters_fail_on_nullish_only (v : value) (e : error) :
  (camelToSnakeCaseKeys v = Throw e <-> (v = VNull \/ v = VUndefined) /\ e = TypeError)
  /\ (snakeToCamelCaseKeys v = Throw e <-> (v = VNull \/ v = VUndefined) /\ e = TypeError).
Proof. split; apply convertKeys_throw. Qed.



(** X9.  The result of a key converter is a well-formed object: its keys are
    pairwise different, each of them is the converted key of an entry of the
    argument, and every converted key other than [__proto__] is among them;
    when the converted keys are pairwise different and none is [__proto__],
    they come in the order of the argument's entries.
    [snakeToCamelCaseString] never gives [__proto__]. *)
Theorem key_converters_keys (es : list (string * value)) :
  (exists converted,
      camelToSnakeCaseKeys (VObj es) = Ok converted
      /\ NoDup (map fst converted)
      /\ (forall key, In key (map fst converted) ->
                      In key (map camelToSnakeCaseString (map fst es)))
      /\ (forall key, In key (map camelToSnakeCaseString (map fst es)) ->
                      key <> protoKey -> In key (map fst converted))
      /\ (NoDup (map camelToSnakeCaseString (map fst es)) ->
          ~ In protoKey (map camelToSnakeCaseString (map fst es)) ->
          map fst converted = map camelToSnakeCaseString (map fst es)))
  /\ (exists converted,
         snakeToCamelCaseKeys (VObj es) = Ok converted
         /\ NoDup (map fst converted)
         /\ (forall key, In key (map fst converted)
                         <-> In key (map snakeToCamelCaseString (map fst es)))
         /\ (NoDup (map snakeToCamelCaseString (map fst es)) ->
             map fst converted = map snakeToCamelCaseString (map fst es))).
Proof.
  split; [apply converted_keys|].
  destruct (converted_keys snakeToCamelCaseString es) as [c [E [N [K [K' O]]]]].
  assert (P : ~ In protoKey (map snakeToCamelCaseString (map fst es))).
  { intros X. apply in_map_iff in X as [k [X _]].
    exact (snakeToCamelCaseString_not_proto k X). }
  exists c. split; [assumption|]. split; [assumption|]. split.
  - intros key. split; [apply K|]. intros X. apply K'; [assumption|].
    intros Y. subst key. contradiction.
  - intros D. now apply O.
Qed.

(** ** Key conversion of objects: there and back *)

Lemma restorable_VObj (D : string -> bool) (es : list (string * value)) :
  restorable D (VObj es) = true ->
  distinct (map fst es) = true
  /\ Forall (fun e => D (fst e) = true /\ restorable D (snd e) = true) es.
Proof.
  simpl. intros H. apply andb_true_iff in H as [Hd Ha]. split; [assumption|].
  clear Hd. induction es as [|[k x] r IH]; [constructor|].
  apply andb_true_iff in Ha as [Ha Hr]. apply andb_true_iff in Ha as [Hk Hx].
  constructor; [split; assumption|auto].
Qed.

Section ThereAndBack.

Variables (there back : string -> string) (D : string -> bool).
Hypothesis back_there : forall k, D k = true -> back (there k) = k.
Hypothesis there_stored : forall k, D k = true -> there k <> protoKey.
Hypothesis back_stored : forall k, D k = true -> k <> protoKey.

Lemma forEachEntry_appends (conv : string -> string) (es : list (string * value)) :
  forall (cs : object) (converted : store),
    Forall2 (fun e c => fst c = conv (fst e) /\ convertValue conv (snd e) = Ok (snd c))
      es cs ->
    NoDup (map fst cs) ->
    ~ In protoKey (map fst cs) ->
    (forall key, In key (map fst cs) -> ~ In key (map fst (fst converted))) ->
    forEachEntry conv es converted = Ok (fst converted ++ cs, snd converted).
Proof.
  induction es as [|[k v] r IH]; intros cs converted F N P Fr.
  - inversion F. simpl. rewrite app_nil_r. now destruct converted.
  - inversion F as [|? [ck w] ? cs' [Hk Hw] F']; subst. simpl in *. subst ck.
    destruct (convertValue_entry_inv conv v w Hw) as [rw Hw']. rewrite Hw'.
    inversion N as [|? ? Hn N']; subst. simpl fst. simpl snd.
    rewrite (assign_fresh (conv k) w rw converted);
      [|intros X; apply P; left; exact X|apply Fr; now left].
    rewrite (IH cs' _ F' N').
    + simpl. now rewrite <- app_assoc.
    + intros X. apply P. now right.
    + intros key Hin. simpl. rewrite map_app, in_app_iff. simpl.
      intros [X|[X|[]]]; [exact (Fr key (or_intror Hin) X)|]. now subst.
Qed.

Lemma convertValue_there_and_back (v : value) :
  restorable D v = true ->
  exists w, convertValue there v = Ok w /\ convertValue back w = Ok v.
Proof.
  induction v as [ | | b | n | s | ms | xs IH | es IH ] using value_induction;
    intros R; try (eexists; split; reflexivity); [discriminate|].
  apply restorable_VObj in R as [Hd HF]. apply distinct_NoDup in Hd.
  assert (G : exists cs,
             Forall2 (fun e c => (fst c = there (fst e)
                                  /\ convertValue there (snd e) = Ok (snd c))
                                 /\ (fst e = back (fst c)
                                     /\ convertValue back (snd c) = Ok (snd e)))
               es cs
             /\ ~ In protoKey (map fst cs) /\ ~ In protoKey (map fst es)).
  { clear Hd. induction es as [|[k x] r IHr]; [exists []; repeat split; auto; constructor|].
    inversion IH as [|? ? Hx IH']; subst. inversion HF as [|? ? [Hk Rx] HF']; subst.
    destruct (IHr IH' HF') as [cs [F [P1 P2]]]. destruct (Hx Rx) as [w [E1 E2]].
    exists ((there k, w) :: cs). simpl in *. split; [|split].
    - constructor; [|assumption]. simpl. repeat split; auto.
      symmetry. now apply back_there.
    - intros [X|X]; [exact (there_stored k Hk X)|contradiction].
    - intros [X|X]; [exact (back_stored k Hk X)|contradiction]. }
  destruct G as [cs [G [P1 P2]]].
  assert (K : map fst es = map back (map fst cs)).
  { clear - G. induction G as [|e c r cs' [_ [H _]] _ IHG]; simpl; [reflexivity|].
    now rewrite H, IHG. }
  assert (N : NoDup (map fst cs)).
  { apply (NoDup_map_inv back). now rewrite <- K. }
  exists (VObj cs). unfold convertValue. simpl recursesInto. cbv iota.
  rewrite !convertKeys_VObj.
  rewrite (forEachEntry_appends there es cs fresh);
    [|eapply Forall2_impl; [|exact G]; tauto|assumption|assumption|intros key _ []].
  rewrite (forEachEntry_appends back cs es fresh); [auto| | | |intros key _ []].
  - apply Forall2_flip. eapply Forall2_impl; [|exact G]. simpl. tauto.
  - assumption.
  - assumption.
Qed.

Lemma convertKeys_there_and_back (es : list (string * value)) :
  restorable D (VObj es) = true ->
  exists c, convertKeys there (VObj es) = Ok c /\ convertKeys back (VObj c) = Ok es.
Proof.
  intros R. destruct (convertValue_there_and_back (VObj es) R) as [w [E1 E2]].
  unfold convertValue in E1. simpl recursesInto in E1. cbv iota in E1.
  destruct (convertKeys there (VObj es)) as [c|e]; [|discriminate].
  inversion E1. subst w. exists c. split; [reflexivity|].
  unfold convertValue in E2. simpl recursesInto in E2. cbv iota in E2.
  destruct (convertKeys back (VObj c)) as [c'|e]; [|discriminate].
  now inversion E2.
Qed.

End ThereAndBack.

Lemma camelKey_facts (k : string) :
  camelKey k = true ->
  snakeToCamelCaseString (camelToSnakeCaseString k) = k
  /\ camelToSnakeCaseString k <> protoKey /\ k <> protoKey.
Proof.
  unfold camelKey. intros H.
  apply andb_true_iff in H as [H H3]. apply andb_true_iff in H as [H1 H2].
  apply negb_true_iff, String.eqb_neq in H2. apply negb_true_iff, String.eqb_neq in H3.
  split; [now apply camel_snake_camel|auto].
Qed.

Lemma snakeKey_facts (k : string) :
  snakeKey k = true ->
  camelToSnakeCaseString (snakeToCamelCaseString k) = k
  /\ snakeToCamelCaseString k <> protoKey /\ k <> protoKey.
Proof.
  unfold snakeKey. intros H.
  apply andb_true_iff in H as [H H3]. apply andb_true_iff in H as [H1 H2].
  apply negb_true_iff, String.eqb_neq in H2. apply negb_true_iff, String.eqb_neq in H3.
  split; [now apply snake_camel_snake|auto].
Qed.

(** X10.  On an object without arrays whose keys, at every depth, are
    pairwise different, have no underscore directly followed by a lowercase
    letter, and are not [__proto__] before or after conversion,
    [snakeToCamelCaseKeys] undoes [camelToSnakeCaseKeys]; on one whose keys
    have no uppercase letter (and are not [__proto__] before or after
    conversion), [camelToSnakeCaseKeys] undoes [snakeToCamelCaseKeys]. *)
Theorem key_converters_roundtrip :
  (forall es : list (string * value),
      restorable camelKey (VObj es) = true ->
      exists c, camelToSnakeCaseKeys (VObj es) = Ok c
                /\ snakeToCamelCaseKeys (VObj c) = Ok es)
  /\ (forall es : list (string * value),
         restorable snakeKey (VObj es) = true ->
         exists c, snakeToCamelCaseKeys (VObj es) = Ok c
                   /\ camelToSnakeCaseKeys (VObj c) = Ok es).
Proof.
  split; intros es R.
  - apply (convertKeys_there_and_back _ _ camelKey); [| | |exact R];
      intros k H; apply (camelKey_facts k H).
  - apply (convertKeys_there_and_back _ _ snakeKey); [| | |exact R];
      intros k H; apply (snakeKey_facts k H).
Qed.

Lemma key_converters_roundtrip_witness :
  exists c,
    camelToSnakeCaseKeys
      (VObj [("firstName", VStr "Jo");
             ("homeAddress", VObj [("zipCode", VNull); ("movedAt", VDate 5)])])
    = Ok c
    /\ snakeToCamelCaseKeys (VObj c)
       = Ok [("firstName", VStr "Jo");
             ("homeAddress", VObj [("zipCode", VNull); ("movedAt", VDate 5)])].
Proof.
  apply (proj1 key_converters_roundtrip
           [("firstName", VStr "Jo");
            ("homeAddress", VObj [("zipCode", VNull); ("movedAt", VDate 5)])]).
  reflexivity.
Defined.

(** ** WHERE-clause fragment builder: offsets and composition *)

Lemma placeholdersFrom_shift (count p : N) (arrayParam : list string) :
  forall i,
    placeholdersFrom count p i arrayParam = placeholdersFrom 0 (p + count) i arrayParam.
Proof.
  induction arrayParam as [|x r IH]; intros i; simpl; [reflexivity|].
  rewrite IH.
  replace (jsAdd 0 (p + count)) with (jsAdd count p); [reflexivity|].
  unfold jsAdd. f_equal. lia.
Qed.

Lemma callback_shift p lines params k v :
  callback p lines params k v
  = match callback (p + len params) [] [] k v with
    | Ok (l, q) => Ok (lines ++ l, params ++ q)
    | Throw e => Throw e
    end.
Proof.
  destruct (resolve k) as [[field op]|e] eqn:R;
    [|unfold callback; rewrite R; reflexivity].
  destruct (isNullOperator op) eqn:Hn.
  - rewrite !(callback_null _ _ _ k v field op R Hn). now rewrite app_nil_r.
  - destruct (isInOperator op) eqn:Hi.
    + destruct (isString v) eqn:Hs.
      * destruct v; try discriminate.
        rewrite !(callback_in_computed _ _ _ k _ field op R Hi).
        rewrite (placeholdersFrom_shift (len params)). reflexivity.
      * now rewrite !(callback_in_not_string _ _ _ k v field op R Hi Hs).
    + assert (Sc : isScalarOperator op = true)
        by (unfold isScalarOperator; now rewrite Hn, Hi).
      rewrite !(callback_scalar_computed _ _ _ k v field op R Sc).
      replace (jsAdd (len (@nil value) + 1) (p + len params))
        with (jsAdd (len params + 1) p); [reflexivity|].
      unfold jsAdd. f_equal. change (len (@nil value)) with 0%N. lia.
Qed.

Lemma len_app {A : Type} (a b : list A) : len (a ++ b) = (len a + len b)%N.
Proof. unfold len. rewrite length_app. lia. Qed.

Lemma forEach_shift es :
  forall p lines params,
    Where.forEach p es lines params
    = match Where.forEach (p + len params) es [] [] with
      | Ok (l, q) => Ok (lines ++ l, params ++ q)
      | Throw e => Throw e
      end.
Proof.
  induction es as [|[k v] r IH]; intros p lines params; simpl.
  - now rewrite !app_nil_r.
  - rewrite (callback_shift p lines params k v).
    destruct (callback (p + len params) [] [] k v) as [[l1 q1]|e]; [|reflexivity].
    cbv iota beta.
    rewrite (IH p (lines ++ l1) (params ++ q1)), (IH (p + len params)%N l1 q1).
    rewrite len_app, N.add_assoc.
    destruct (Where.forEach (p + len params + len q1) r [] []) as [[l q]|e];
      [|reflexivity].
    now rewrite !app_assoc.
Qed.

Lemma join_app (sep : string) (a b : list string) :
  a <> [] -> b <> [] -> join sep (a ++ b) = join sep a +++ sep +++ join sep b.
Proof.
  intros Ha Hb. induction a as [|x a IH]; [contradiction|].
  destruct a as [|y a'].
  - destruct b as [|z b']; [contradiction|reflexivity].
  - change (join sep ((x :: y :: a') ++ b))
      with (x +++ sep +++ join sep ((y :: a') ++ b)).
    rewrite IH by discriminate.
    change (join sep (x :: y :: a')) with (x +++ sep +++ join sep (y :: a')).
    now rewrite !append_assoc.
Qed.

Lemma forEach_lines_length p es :
  forall lines params l q,
    Where.forEach p es lines params = Ok (l, q) ->
    List.length l = List.length lines + List.length es.
Proof.
  induction es as [|[k v] r IH]; intros lines params l q; simpl.
  - intros E. inversion E. lia.
  - destruct (callback p lines params k v) as [[l1 q1]|e] eqn:C; [|discriminate].
    intros E. rewrite (IH _ _ _ _ E).
    assert (X : List.length l1 = S (List.length lines)); [|lia].
    unfold callback in C. destruct (resolve k) as [[field op]|e]; [|discriminate].
    destruct (opIs op "IS NULL" || opIs op "IS NOT NULL");
      [|destruct (opIs op "IN" || opIs op "NOT IN"); [destruct v; try discriminate|]];
      inversion C; rewrite length_app; simpl; lia.
Qed.

(** X11.  Fragments compose through the offset.  For a mapping whose
    entries, as [Object.entries] enumerates them, are those of [first]
    followed by those of [second], and with the offset plus the number of
    parameters of the first fragment below 2^53 (so that the caller's sum is
    exact): building the conditions of [first] at offset [p] and those of
    [second] at [p] plus the number of parameters of the first fragment
    gives the same as building all of them at once; the parameters are
    concatenated, and the segments are joined by [AND] between line feeds
    (when both mappings have entries). *)
Theorem getWhereParams_composes (first second : object) (p : N)
    (out1 out2 : GetParamsForWhereOutput) :
  (p + len (whereParams out1) < safeLimit)%N ->
  getWhereParams first (Some p) = Ok out1 ->
  getWhereParams second (Some (jsAdd p (len (whereParams out1)))) = Ok out2 ->
  getWhereParams (first ++ second) (Some p)
  = Ok {| whereSegment :=
            andSegments (whereSegment out1) (whereSegment out2)
              (isEmpty first) (isEmpty second);
          whereParams := whereParams out1 ++ whereParams out2 |}.
Proof.
  unfold getWhereParams. intros B E1 E2. rewrite (jsAdd_exact _ _ B) in E2.
  destruct (Where.forEach p first [] []) as [[l1 q1]|e] eqn:F1; [|discriminate].
  inversion E1. subst out1. simpl in E2.
  destruct (Where.forEach (p + len q1) second [] []) as [[l2 q2]|e] eqn:F2; [|discriminate].
  inversion E2. subst out2. simpl.
  rewrite forEach_app, F1, forEach_shift, F2.
  pose proof (forEach_lines_length _ _ _ _ _ _ F1) as L1.
  pose proof (forEach_lines_length _ _ _ _ _ _ F2) as L2.
  unfold andSegments. do 2 f_equal.
  destruct first as [|e1 r1]; simpl in *.
  - destruct l1; [reflexivity|discriminate].
  - destruct second as [|e2 r2]; simpl in *.
    + destruct l2; [now rewrite app_nil_r|discriminate].
    + apply join_app; [destruct l1|destruct l2]; discriminate.
Qed.

Lemma getWhereParams_composes_witness :
  getWhereParams
    ([("age:gte", VNum 18); ("age:lt", VNum 65)]
       ++ [("deletedAt:isNull", VNull); ("name", VStr "Jo")])
    (Some 1%N)
  = Ok {| whereSegment :=
            andSegments ("age >= $2" +++ AND +++ "age < $3")
              ("deleted_at IS NULL" +++ AND +++ "name = $4") false false;
          whereParams := [VNum 18; VNum 65] ++ [VStr "Jo"] |}.
Proof.
  apply (getWhereParams_composes
           [("age:gte", VNum 18); ("age:lt", VNum 65)]
           [("deletedAt:isNull", VNull); ("name", VStr "Jo")] 1%N
           {| whereSegment := "age >= $2" +++ AND +++ "age < $3";
              whereParams := [VNum 18; VNum 65] |}
           {| whereSegment := "deleted_at IS NULL" +++ AND +++ "name = $4";
              whereParams := [VStr "Jo"] |}); reflexivity.
Defined.

(** ** WHERE-clause fragment builder: what the text and the parameters
    depend on *)

(** The outcome of the callback, as far as the text is concerned. *)
Lemma callback_same_shape p lines params params' (e e' : string * value) :
  sameShape e e' ->
  List.length params = List.length params' ->
  match callback p lines params (fst e) (snd e),
        callback p lines params' (fst e') (snd e') with
  | Ok (l, q), Ok (l', q') => l = l' /\ List.length q = List.length q'
  | Throw x, Throw x' => x = x'
  | _, _ => False
  end.
Proof.
  destruct e as [k v], e' as [k' v']. intros [Hk Hs] L. simpl in *. subst k'.
  assert (Ln : len params = len params') by (unfold len; now rewrite L).
  destruct (resolve k) as [[field op]|x] eqn:R.
  - destruct (isNullOperator op) eqn:Hn.
    + rewrite !(callback_null p lines _ k _ field op R Hn). auto.
    + destruct (isInOperator op) eqn:Hi.
      * assert (S : inShape v = inShape v') by (apply Hs; exists field, op; auto).
        assert (T : forall prm w, isString w = false ->
                                  callback p lines prm k w = Throw TypeError)
          by (intros prm w Hw; now apply (callback_in_not_string p lines prm k w field op)).
        destruct v as [ | | | | s | | | ]; destruct v' as [ | | | | s' | | | ];
          try discriminate;
          try (rewrite !T by reflexivity; reflexivity).
        rewrite !(callback_in_computed p lines _ k _ field op R Hi).
        simpl in S. inversion S as [S']. rewrite Ln.
        rewrite (placeholdersFrom_length _ _ (split "," s) (split "," s') S').
        split; [reflexivity|]. rewrite !length_app. simpl. lia.
      * assert (Sc : isScalarOperator op = true)
          by (unfold isScalarOperator; now rewrite Hn, Hi).
        rewrite !(callback_scalar_computed p lines _ k _ field op R Sc). rewrite Ln.
        split; [reflexivity|]. rewrite !length_app. simpl. lia.
  - unfold callback. rewrite R. reflexivity.
Qed.

Lemma forEach_same_shape p es es' :
  Forall2 sameShape es es' ->
  forall lines params params',
    List.length params = List.length params' ->
    match Where.forEach p es lines params, Where.forEach p es' lines params' with
    | Ok (l, q), Ok (l', q') => l = l' /\ List.length q = List.length q'
    | Throw x, Throw x' => x = x'
    | _, _ => False
    end.
Proof.
  induction 1 as [|e e' r r' S _ IH]; intros lines params params' L; simpl; [auto|].
  pose proof (callback_same_shape p lines params params' e e' S L) as C.
  destruct e as [k v], e' as [k' v']. simpl in C.
  destruct (callback p lines params k v) as [[l q]|x];
    destruct (callback p lines params' k' v') as [[l' q']|x']; try contradiction.
  - destruct C as [El Eq]. subst l'. now apply IH.
  - assumption.
Qed.

(** X12.  The values never reach the SQL text.  Two mappings with the same
    keys in the same order (and, for the entries that resolve to [IN] or
    [NOT IN], values that are both strings splitting into the same number
    of elements, or both not strings) give the same segment, or fail the
    same way. *)
Theorem whereSegment_ignores_values (entries entries' : object) (paramsOffset : option N) :
  Forall2 sameShape entries entries' ->
  segmentOf (getWhereParams entries paramsOffset)
  = segmentOf (getWhereParams entries' paramsOffset).
Proof.
  intros S. unfold getWhereParams.
  pose proof (forEach_same_shape (offsetOf paramsOffset) entries entries' S [] [] []
                eq_refl) as H.
  fold (offsetOf paramsOffset).
  destruct (Where.forEach _ entries [] []) as [[l q]|x];
    destruct (Where.forEach _ entries' [] []) as [[l' q']|x']; try contradiction; simpl.
  - destruct H as [H _]. now subst.
  - now subst.
Qed.

Lemma whereSegment_ignores_values_witness :
  segmentOf (getWhereParams
               [("name:like", VStr "a%"); ("status:in", VStr "x,y"); ("age", VNum 3)]
               (Some 2%N))
  = segmentOf (getWhereParams
                 [("name:like", VStr "'; DROP TABLE t; --"); ("status:in", VStr "$1,$2");
                  ("age", VNull)]
                 (Some 2%N)).
Proof.
  apply (whereSegment_ignores_values
           [("name:like", VStr "a%"); ("status:in", VStr "x,y"); ("age", VNum 3)]
           [("name:like", VStr "'; DROP TABLE t; --"); ("status:in", VStr "$1,$2");
            ("age", VNull)] (Some 2%N)).
  repeat constructor; simpl; intros [f [op [R I]]]; vm_compute in R;
    inversion R; subst; discriminate.
Defined.

Lemma callback_params_any_offset p p' lines lines' params k v :
  match callback p lines params k v, callback p' lines' params k v with
  | Ok (_, q), Ok (_, q') => q = q'
  | Throw x, Throw x' => x = x'
  | _, _ => False
  end.
Proof.
  unfold callback. destruct (resolve k) as [[field op]|x]; [|reflexivity].
  destruct (opIs op "IS NULL" || opIs op "IS NOT NULL"); [reflexivity|].
  destruct (opIs op "IN" || opIs op "NOT IN"); [destruct v|]; reflexivity.
Qed.

Lemma forEach_params_any_offset p p' es :
  forall lines lines' params,
    match Where.forEach p es lines params, Where.forEach p' es lines' params with
    | Ok (_, q), Ok (_, q') => q = q'
    | Throw x, Throw x' => x = x'
    | _, _ => False
    end.
Proof.
  induction es as [|[k v] r IH]; intros lines lines' params; simpl; [reflexivity|].
  pose proof (callback_params_any_offset p p' lines lines' params k v) as C.
  destruct (callback p lines params k v) as [[l q]|x];
    destruct (callback p' lines' params k v) as [[l' q']|x']; try contradiction.
  - subst q'. apply IH.
  - assumption.
Qed.

(** X13.  The offset only renumbers the placeholders: the parameters
    returned, and whether and how the builder fails, are the same for every
    offset. *)
Theorem whereParams_ignore_offset (entries : object) (paramsOffset paramsOffset' : option N) :
  paramsOf (getWhereParams entries paramsOffset)
  = paramsOf (getWhereParams entries paramsOffset').
Proof.
  unfold getWhereParams.
  pose proof (forEach_params_any_offset (offsetOf paramsOffset) (offsetOf paramsOffset')
                entries [] [] []) as H.
  fold (offsetOf paramsOffset). fold (offsetOf paramsOffset').
  destruct (Where.forEach (offsetOf paramsOffset) entries [] []) as [[l q]|x];
    destruct (Where.forEach (offsetOf paramsOffset') entries [] []) as [[l' q']|x'];
    try contradiction; simpl; now subst.
Qed.

Lemma forEach_params_length p es :
  forall lines params l q,
    Where.forEach p es lines params = Ok (l, q) ->
    List.length q = List.length params + List.length (filter bindsParameter es).
Proof.
  induction es as [|[k v] r IH]; intros lines params l q; simpl.
  - intros E. inversion E. lia.
  - destruct (callback p lines params k v) as [[l1 q1]|x] eqn:C; [|discriminate].
    intros E. rewrite (IH _ _ _ _ E). clear E IH.
    unfold bindsParameter. simpl fst.
    destruct (resolve k) as [[field op]|x] eqn:R.
    + destruct (isNullOperator op) eqn:Hn; simpl.
      * rewrite (callback_null p lines params k v field op R Hn) in C.
        inversion C. lia.
      * assert (X : List.length q1 = S (List.length params)); [|lia].
        destruct (isInOperator op) eqn:Hi.
        -- destruct (isString v) eqn:Hv.
           ++ destruct v; try discriminate.
              rewrite (callback_in_computed p lines params k s field op R Hi) in C.
              inversion C. rewrite length_app. simpl. lia.
           ++ rewrite (callback_in_not_string p lines params k v field op R Hi Hv) in C.
              discriminate.
        -- rewrite (callback_scalar_computed p lines params k v field op R) in C
             by (unfold isScalarOperator; now rewrite Hn, Hi).
           inversion C. rewrite length_app. simpl. lia.
    + unfold callback in C. rewrite R in C. discriminate.
Qed.

(** X14.  When [getWhereParams] returns, it returns one parameter for each
    entry whose operator is not [IS NULL] or [IS NOT NULL], an [IN] list
    counting as one. *)
Theorem whereParams_count (entries : object) (paramsOffset : option N)
    (out : GetParamsForWhereOutput) :
  getWhereParams entries paramsOffset = Ok out ->
  List.length (whereParams out) = List.length (filter bindsParameter entries).
Proof.
  unfold getWhereParams.
  destruct (Where.forEach _ entries [] []) as [[l q]|x] eqn:F; [|discriminate].
  intros E. inversion E. simpl.
  now rewrite (forEach_params_length _ _ _ _ _ _ F).
Qed.

Lemma whereParams_count_witness :
  List.length
    (whereParams
       {| whereSegment := "a = $1" +++ AND +++ "b IS NULL" +++ AND +++ "c IN ($2, $3)";
          whereParams := [VNum 1; VArr [VStr "x"; VStr "y"]] |})
  = List.length
      (filter bindsParameter
         [("a", VNum 1); ("b:isNull", VNum 2); ("c:in", VStr "x,y")]).
Proof.
  apply (whereParams_count
           [("a", VNum 1); ("b:isNull", VNum 2); ("c:in", VStr "x,y")] None).
  reflexivity.
Defined.

(** ** WHERE-clause fragment builder: the syntax of keys *)

Lemma split_append (c : ascii) (a b : string) :
  includes c a = false -> split c (a +++ String c b) = a :: split c b.
Proof.
  induction a as [|x a IH]; simpl.
  - intros _. now rewrite Ascii.eqb_refl.
  - intros H. apply orb_false_iff in H as [Hx Ha]. now rewrite Hx, (IH Ha).
Qed.

Lemma includes_separator (c : ascii) (a b : string) :
  includes c (a +++ String c b) = true.
Proof.
  induction a as [|x a IH]; simpl.
  - now rewrite Ascii.eqb_refl.
  - rewrite IH. apply orb_true_r.
Qed.

(** X15.  For a field and a token without colons, the key [field:token]
    resolves to the field and to what the table (or [Object.prototype])
    holds for the token, and raises InvalidOperator when it holds nothing;
    whatever follows a second colon is ignored. *)
Theorem resolve_key_syntax (field token rest : string) :
  includes ":" field = false ->
  includes ":" token = false ->
  resolve (field +++ ":" +++ token)
  = match lookupOperator token with
    | Some op => Ok (field, op)
    | None => Throw InvalidOperator
    end
  /\ resolve (field +++ ":" +++ token +++ ":" +++ rest)
     = resolve (field +++ ":" +++ token).
Proof.
  intros Hf Ht.
  assert (A : forall more,
             split ":" more = token :: tl (split ":" more) ->
             resolve (field +++ String ":" more)
             = match lookupOperator token with
               | Some op => Ok (field, op)
               | None => Throw InvalidOperator
               end).
  { intros more Hm. unfold resolve.
    rewrite (includes_separator ":" field more).
    rewrite (split_append ":" field more Hf), Hm. simpl.
    destruct (lookupOperator token) as [op|] eqn:L; [|reflexivity].
    now rewrite (lookupOperator_truthy token op L). }
  change (":" +++ token) with (String ":" token).
  change (":" +++ token +++ ":" +++ rest) with (String ":" (token +++ String ":" rest)).
  rewrite (A token), (A (token +++ String ":" rest)).
  - auto.
  - now rewrite (split_append ":" token rest Ht).
  - now rewrite (split_no_includes ":" token Ht).
Qed.

Lemma resolve_key_syntax_witness :
  resolve ("age" +++ ":" +++ "gte")
  = match lookupOperator "gte" with
    | Some op => Ok ("age", op)
    | None => Throw InvalidOperator
    end
  /\ resolve ("age" +++ ":" +++ "gte" +++ ":" +++ "or:anything")
     = resolve ("age" +++ ":" +++ "gte").
Proof. apply (resolve_key_syntax "age" "gte" "or:anything"); reflexivity. Defined.

(** ** INSERT and SET fragment builders: placeholders of the text *)

Lemma placeholderTokens_join (c : ascii) (sep : string) (xs : list string) :
  is_digit c = false ->
  dollarFree (String c sep) = true ->
  placeholderTokens (join (String c sep) xs) = List.concat (map placeholderTokens xs).
Proof.
  intros Hc Hs. induction xs as [|x r IH]; [reflexivity|].
  destruct r as [|y r'].
  - simpl. now rewrite app_nil_r.
  - change (join (String c sep) (x :: y :: r'))
      with (x +++ String c sep +++ join (String c sep) (y :: r')).
    rewrite placeholderTokens_append by (simpl; now rewrite Hc).
    rewrite (placeholderTokens_skip (String c sep)) by assumption.
    rewrite IH. reflexivity.
Qed.

Lemma placeholders_of_placeholders (ns : list N) :
  placeholders (join ", " (map placeholder ns)) = ns.
Proof.
  unfold placeholders. rewrite placeholderTokens_join by reflexivity.
  induction ns as [|n r IH]; [reflexivity|].
  cbn [map List.concat]. rewrite placeholderTokens_placeholder.
  change ([toString n] ++ ?l) with (toString n :: l). cbn [map].
  now rewrite readNumber_toString, IH.
Qed.

(** X16.  In what [getParamsForInsert] returns, the placeholders of
    [paramsSegment] are [$1 .. $n] in order, [n] being the number of values
    and of entries; [columnsSegment] holds no placeholder when no column name
    contains a [$]. *)
Theorem getParamsForInsert_placeholders (insertParams : object) :
  placeholders (paramsSegment (getParamsForInsert insertParams))
  = numbersFrom 0 (List.length (values (getParamsForInsert insertParams)))
  /\ List.length (values (getParamsForInsert insertParams)) = List.length insertParams
  /\ (Forall (fun e => dollarFree (fst e) = true) insertParams ->
      placeholders (columnsSegment (getParamsForInsert insertParams)) = []).
Proof.
  unfold getParamsForInsert. rewrite insert_forEach_spec. simpl.
  rewrite length_map, placeholders_of_placeholders.
  split; [reflexivity|]. split; [reflexivity|].
  intros F. unfold placeholders. rewrite placeholderTokens_join by reflexivity.
  induction F as [|[k v] r Hk _ IH]; [reflexivity|].
  simpl in *. rewrite placeholderTokens_dollarFree; [exact IH|].
  now rewrite camelToSnakeCaseString_dollarFree.
Qed.

(** X17.  [getParamsForSet] returns the assignments
    [<snake_case column>=$i], [i] counting the entries from 1, joined by a
    comma and a space, and the values in the same order; when no column name
    contains a [$], the placeholders of the text are [$1 .. $n] in order. *)
Theorem getParamsForSet_assignments (setParams : object) :
  getParamsForSet setParams
  = {| sqlSegment := join ", " (assignments 0 setParams);
       setValues := map snd setParams |}
  /\ (Forall (fun e => dollarFree (fst e) = true) setParams ->
      placeholders (sqlSegment (getParamsForSet setParams))
      = numbersFrom 0 (List.length setParams)).
Proof.
  rewrite getParamsForSet_spec. split; [reflexivity|].
  intros F. simpl. unfold placeholders.
  rewrite placeholderTokens_join by reflexivity.
  generalize 0%N. induction F as [|[k v] r Hk _ IH]; intros first; [reflexivity|].
  cbn [assignments map List.concat fst List.length numbersFrom] in *.
  rewrite <- append_assoc.
  rewrite placeholderTokens_skip.
  2:{ rewrite dollarFree_append, camelToSnakeCaseString_dollarFree, Hk. reflexivity. }
  rewrite placeholderTokens_placeholder.
  change ([toString (first + 1)] ++ ?l) with (toString (first + 1) :: l). cbn [map].
  now rewrite readNumber_toString, IH.
Qed.

Lemma getParamsForSet_assignments_witness :
  placeholders
    (sqlSegment (getParamsForSet [("firstName", VStr "Jo"); ("age", VNum 5)]))
  = numbersFrom 0 2.
Proof.
  apply (proj2 (getParamsForSet_assignments [("firstName", VStr "Jo"); ("age", VNum 5)])).
  repeat constructor.
Defined.

(** ** Array normalizer: what comes out *)

Lemma obj_get_In (k : string) (o : object) (v : value) :
  obj_get k o = Some v -> In v (map snd o).
Proof.
  induction o as [|[k' v'] r IH]; simpl; [discriminate|].
  destruct (String.eqb k' k); [intros E; inversion E; now left|auto].
Qed.

Lemma lookup_own_keys (o : object) :
  NoDup (map fst o) -> map (lookupOr o) (map fst o) = map snd o.
Proof.
  induction o as [|[k v] r IH]; [reflexivity|].
  intros N. inversion N as [|? ? Hk Nr]; subst.
  cbn [map fst snd]. f_equal.
  - unfold lookupOr. simpl. now rewrite String.eqb_refl.
  - rewrite <- (IH Nr). apply map_ext_in. intros k' Hin.
    unfold lookupOr. simpl.
    destruct (String.eqb_spec k k') as [E|E]; [subst; contradiction|reflexivity].
Qed.

(** X18.  [arrayObjectToArray] returns as many elements as the object has
    keys, and every element is a value of the object or [undefined]. *)
Theorem arrayObjectToArray_elements (arrayObject : object) :
  List.length (arrayObjectToArray arrayObject) = List.length arrayObject
  /\ (forall v, In v (arrayObjectToArray arrayObject) ->
                v = VUndefined \/ In v (map snd arrayObject)).
Proof.
  unfold arrayObjectToArray, Object_keys. split.
  - rewrite !length_map.
    rewrite <- (Permutation_length (proj1 (sort_spec (map parseInt (map fst arrayObject))))).
    now rewrite !length_map.
  - intros v H. apply in_map_iff in H as [k [E _]].
    destruct (obj_get k arrayObject) as [w|] eqn:G; [|now left].
    right. subst w. now apply (obj_get_In k).
Qed.

(** X19.  When the keys are pairwise different and each is the text of the
    number [parseInt] reads in it (a number below 2^53 in absolute value),
    [arrayObjectToArray] returns the values
    of the object rearranged: nothing is lost and no [undefined] comes in. *)
Theorem arrayObjectToArray_rearranges (arrayObject : object) :
  distinct (map fst arrayObject) = true ->
  forallb canonicalKey (map fst arrayObject) = true ->
  Permutation (arrayObjectToArray arrayObject) (map snd arrayObject).
Proof.
  intros D C. apply distinct_NoDup in D.
  unfold arrayObjectToArray, Object_keys.
  change (fun stringKey : string =>
            match obj_get stringKey arrayObject with
            | Some v => v
            | None => VUndefined
            end) with (lookupOr arrayObject).
  rewrite <- (lookup_own_keys arrayObject D).
  apply Permutation_map.
  rewrite <- (proj1 (sort_spec (map parseInt (map fst arrayObject)))).
  rewrite map_map.
  rewrite (map_ext_in _ (fun k => k)); [now rewrite map_id|].
  intros k Hin. rewrite forallb_forall in C.
  specialize (C k Hin). apply andb_true_iff in C as [C _].
  now apply String.eqb_eq.
Qed.

Lemma arrayObjectToArray_rearranges_witness :
  Permutation
    (arrayObjectToArray [("0", VStr "a"); ("3", VStr "b"); ("12", VStr "c")])
    (map snd [("0", VStr "a"); ("3", VStr "b"); ("12", VStr "c")]).
Proof.
  apply (arrayObjectToArray_rearranges [("0", VStr "a"); ("3", VStr "b"); ("12", VStr "c")]);
    reflexivity.
Defined.

(** X20.  For the object of an array, with keys ["0"], ["1"], ...
    [arrayObjectToArray] gives the elements back in order as long as there
    are at most ten; with eleven, the element of key ["10"] comes third. *)
Theorem arrayObjectToArray_on_arrays :
  (forall xs : list value,
      List.length xs <= 10 -> arrayObjectToArray (arrayEntries 0 xs) = xs)
  /\ (forall (xs : list value) (d : value),
         List.length xs = 11 ->
         nth 2 (arrayObjectToArray (arrayEntries 0 xs)) d = nth 10 xs d).
Proof.
  split.
  - intros xs H.
    do 11 (destruct xs as [|? xs]; [reflexivity|]). simpl in H. lia.
  - intros xs d H.
    do 11 (destruct xs as [|? xs]; [discriminate|]).
    destruct xs; [reflexivity|discriminate].
Qed.

Lemma arrayObjectToArray_on_arrays_witness :
  arrayObjectToArray (arrayEntries 0 [VStr "a"; VNull; VNum 3]) = [VStr "a"; VNull; VNum 3].
Proof.
  apply (proj1 arrayObjectToArray_on_arrays [VStr "a"; VNull; VNum 3]). simpl. lia.
Defined.
